(** * ao: compute unit and messenger unit, shallow embedding

    The development follows the JavaScript sources of the repository:

    - the Warp sequencer client ([padBlockHeight], [mapBounds],
      [loadInteractionsWith]);
    - [servers/cu/src/domain/client/ao-process.js] ([isLaterThan], the process
      memory cache, Checkpoint discovery and publication);
    - [servers/cu/src/domain/lib/hydrateMessages.js] ([maybeMessageId]);
    - the messenger unit's sequencer client ([writeMessageWith]) and monitor
      worker ([fetchScheduled], [processMonitor]).

    JavaScript strings are modelled by [string] (sequences of code units,
    here bytes), numbers by [Z] (exact on the safe integers the program
    handles: block heights, epoch milliseconds, HTTP statuses) with [None]
    standing for [NaN] where a conversion can produce it, and [undefined]
    by a constructor of its own or by [None].  Promises and the [hyper-async]
    pipelines are modelled by their settlement ([Resolved] or [Rejected])
    together with the log of effects performed on the way. *)

From Stdlib Require Import ZArith Ascii String List Bool Lia.
From Stdlib Require Import DecimalString DecimalPos DecimalFacts.
From Stdlib Require Import Sorting.Sorted.
From stdpp Require Import base option list gmap strings sorting.

Local Open Scope Z_scope.

(** ** JavaScript values and string primitives *)

Module JS.

(** *** Strings *)

Definition comma : ascii := ","%char.

Definition isComma (c : ascii) : bool := Ascii.eqb c comma.

(** [s.split(",")]: never empty, [""] splits into [[""]]. *)
Fixpoint split (s : string) : list string :=
  match s with
  | EmptyString => [EmptyString]
  | String c s' =>
      if isComma c then EmptyString :: split s'
      else match split s' with
           | [] => [String c EmptyString]
           | field :: fields => String c field :: fields
           end
  end.

(** [parts.join(",")]. *)
Fixpoint join (parts : list string) : string :=
  match parts with
  | [] => EmptyString
  | [field] => field
  | field :: fields => field +:+ String comma (join fields)
  end.

Fixpoint replicate (n : nat) (c : ascii) : string :=
  match n with
  | O => EmptyString
  | S n' => String c (replicate n' c)
  end.

(** [s.padStart(targetLength, c)] for a one-character filler [c]. *)
Definition padStart (targetLength : nat) (c : ascii) (s : string) : string :=
  replicate (targetLength - String.length s) c +:+ s.

(** A string is falsy exactly when it is empty. *)
Definition truthy (s : string) : bool :=
  match s with EmptyString => false | String _ _ => true end.

(** *** Numbers read from and written to strings *)

Definition isDigit (c : ascii) : bool :=
  let n := nat_of_ascii c in (48 <=? n)%nat && (n <=? 57)%nat.

Definition digitValue (c : ascii) : Z := Z.of_nat (nat_of_ascii c) - 48.

Definition isWhiteSpace (c : ascii) : bool :=
  let n := nat_of_ascii c in
  (n =? 32)%nat || ((9 <=? n)%nat && (n <=? 13)%nat).

Fixpoint trimStart (s : string) : string :=
  match s with
  | String c s' => if isWhiteSpace c then trimStart s' else s
  | EmptyString => EmptyString
  end.

(** The longest prefix of decimal digits, read left to right:
    [None] when there is none, its value with [acc] as the digits
    already read otherwise. *)
Fixpoint readDigits (acc : option Z) (s : string) : option Z :=
  match s with
  | String c s' =>
      if isDigit c
      then readDigits (Some (10 * default 0 acc + digitValue c)) s'
      else acc
  | EmptyString => acc
  end.

Definition hexDigitValue (c : ascii) : option Z :=
  let n := nat_of_ascii c in
  if isDigit c then Some (digitValue c)
  else if (97 <=? n)%nat && (n <=? 102)%nat then Some (Z.of_nat n - 87)
  else if (65 <=? n)%nat && (n <=? 70)%nat then Some (Z.of_nat n - 55)
  else None.

Fixpoint readHexDigits (acc : option Z) (s : string) : option Z :=
  match s with
  | String c s' =>
      match hexDigitValue c with
      | Some d => readHexDigits (Some (16 * default 0 acc + d)) s'
      | None => acc
      end
  | EmptyString => acc
  end.

(** The digits of [parseInt] after the sign: hexadecimal after a
    [0x] or [0X] prefix, decimal otherwise. *)
Definition readInteger (s : string) : option Z :=
  match s with
  | String "0"%char (String "x"%char s') => readHexDigits None s'
  | String "0"%char (String "X"%char s') => readHexDigits None s'
  | _ => readDigits None s
  end.

(** The value of a string of decimal digits, most significant first. *)
Definition decimalValue (s : string) : Z :=
  fold_left (fun acc c => 10 * acc + digitValue c) (list_ascii_of_string s) 0.

Fixpoint allDigits (s : string) : bool :=
  match s with
  | EmptyString => true
  | String c s' => isDigit c && allDigits s'
  end.

Fixpoint noComma (s : string) : bool :=
  match s with
  | EmptyString => true
  | String c s' => negb (isComma c) && noComma s'
  end.

(** [parseInt(s)] with no radix argument: leading white space, an
    optional sign, then the longest prefix of digits; [NaN] ([None])
    when that prefix is empty. *)
Definition parseInt (s : string) : option Z :=
  match trimStart s with
  | String "-"%char s' => Z.opp <$> readInteger s'
  | String "+"%char s' => readInteger s'
  | s' => readInteger s'
  end.

(** [String(n)] for an integer or [NaN]. *)
Definition numberToString (n : option Z) : string :=
  match n with
  | None => "NaN"
  | Some z => NilZero.string_of_int (Z.to_int z)
  end.

(** [n + 1] on numbers: [NaN + 1] is [NaN]. *)
Definition succ (n : option Z) : option Z := Z.succ <$> n.

(** *** Values

    The values that reach the comparisons of the program: [undefined],
    numbers and strings. *)

Inductive value :=
| VUndefined
| VNumber (n : Z)
| VString (s : string).

(** [!!v]. *)
Definition valueTruthy (v : value) : bool :=
  match v with
  | VUndefined => false
  | VNumber n => negb (n =? 0)
  | VString s => truthy s
  end.

(** [a === b]. *)
Definition strictEquals (a b : value) : bool :=
  match a, b with
  | VUndefined, VUndefined => true
  | VNumber x, VNumber y => x =? y
  | VString x, VString y => String.eqb x y
  | _, _ => false
  end.

(** [a > b] on two strings: code units compared left to right. *)
Definition stringGreaterThan (a b : string) : bool := String.ltb b a.

Section Comparison.

(** The numeric value of a string ([Number(s)]), [None] for [NaN]. *)
Variable StringToNumber : string -> option Z.

Definition ToNumber (v : value) : option Z :=
  match v with
  | VUndefined => None
  | VNumber n => Some n
  | VString s => StringToNumber s
  end.

(** [a > b]: two strings are compared as strings, anything else as
    numbers, and a comparison with [NaN] is false. *)
Definition greaterThan (a b : value) : bool :=
  match a, b with
  | VString x, VString y => stringGreaterThan x y
  | _, _ =>
      match ToNumber a, ToNumber b with
      | Some x, Some y => y <? x
      | _, _ => false
      end
  end.

End Comparison.

(** [s || ''] for a string or [undefined]. *)
Definition orEmpty (s : option string) : string := default EmptyString s.

(** [`${v}`]. *)
Definition templateString (v : value) : string :=
  match v with
  | VUndefined => "undefined"
  | VNumber n => numberToString (Some n)
  | VString s => s
  end.

Definition ofOptionString (s : option string) : value :=
  match s with Some x => VString x | None => VUndefined end.

Fixpoint reverseOnto (acc s : string) : string :=
  match s with
  | EmptyString => acc
  | String c s' => reverseOnto (String c acc) s'
  end.

(** [s.trim()]. *)
Definition trim (s : string) : string :=
  reverseOnto EmptyString (trimStart (reverseOnto EmptyString (trimStart s))).

End JS.

(** ** [model.js]: raw tags *)

Module Model.

(** [rawTagSchema]: [{ name, value }]. *)
Record Tag := mkTag { name : string; tagValue : string }.

End Model.

(** ** The Warp sequencer client: sort-key bounds *)

Module SortKey.
Import JS.

(** [padBlockHeight(sortKey)]: [undefined] and [""] are returned as they
    are, otherwise the first comma-separated field is padded to 12
    characters with ["0"]. *)
Definition padBlockHeight (sortKey : option string) : option string :=
  match sortKey with
  | None => None
  | Some s =>
      if negb (truthy s) then Some s
      else match split s with
           | height :: rest => Some (join (padStart 12 "0" height :: rest))
           | [] => Some s
           end
  end.

(** The first stage of the [to] pipe of [mapBounds]: a key with more
    than one field is rejoined as it is, a key that is a block height
    alone is incremented. *)
Definition incrementBlockHeight (sortKey : option string) : option string :=
  match sortKey with
  | None => None
  | Some s =>
      if negb (truthy s) then Some s
      else
        let parts := split s in
        if (1 <? length parts)%nat then Some (join parts)
        else match parts with
             | height :: _ =>
                 if negb (truthy height) then Some height
                 else Some (numberToString (succ (parseInt height)))
             | [] => None
             end
  end.

(** [pipe(increment, padBlockHeight)], the [to] transform of [mapBounds]. *)
Definition incrementBound (sortKey : option string) : option string :=
  padBlockHeight (incrementBlockHeight sortKey).

Record Bounds := mkBounds {
  id : string;
  from : option string;
  to : option string
}.

(** [evolve({ from: padBlockHeight, to: pipe(...) })]. *)
Definition mapBounds (ctx : Bounds) : Bounds :=
  {| id := id ctx;
     from := padBlockHeight (from ctx);
     to := incrementBound (to ctx) |}.

End SortKey.

(** ** Settlement of promises and [hyper-async] pipelines *)

Module Async.

Definition error := string.

(** How an asynchronous call ends.  [Thrown] is an exception raised
    synchronously inside a continuation of a pipeline: the model stops
    there and does not say how [hyper-async] surfaces it. *)
Inductive outcome (A : Type) :=
| Resolved (a : A)
| Rejected (e : error)
| Thrown (e : error).

Arguments Resolved {A} a.
Arguments Rejected {A} e.
Arguments Thrown {A} e.

End Async.

(** ** The Warp sequencer client: loading interactions *)

Module SuClient.
Import JS Async Model SortKey.

(** An element of [interactions] once the page schema has parsed it:
    [{ interaction: { tags, block: { id, height, timestamp }, sortKey } }]. *)
Record Interaction := mkInteraction {
  tags : list Tag;
  blockId : string;
  height : Z;
  blockTimestamp : Z;
  sortKey : string
}.

(** What is handed to the caller: [{ sortKey, action }]. *)
Record Loaded (JSON : Type) := mkLoaded {
  loadedSortKey : string;
  action : JSON
}.

Arguments mkLoaded {JSON} loadedSortKey action.
Arguments loadedSortKey {JSON} l.
Arguments action {JSON} l.

(** The sequencer as the client sees it: the requests received so far and
    the pages it will answer with, one per request.  [None] is a body that
    is not JSON or that [interactionsPageSchema] refuses; a sequencer with
    nothing left answers with an empty page. *)
Record Sequencer := mkSequencer {
  requests : list string;
  pages : list (option (list Interaction))
}.

Definition fetch (url : string) (su : Sequencer) : option (list Interaction) * Sequencer :=
  (List.hd (Some []) (pages su),
   {| requests := requests su ++ [url]; pages := List.tl (pages su) |}).

(** [`${s}`] for a string or [undefined]. *)
Definition template (s : option string) : string := templateString (ofOptionString s).

Section WithEnv.

Variable JSON : Type.
(** [JSON.parse], [None] when it throws. *)
Variable JSON_parse : string -> option JSON.
(** [interactionSchema] is declared in a [dal.js] that is not among the
    sources: it is a parameter here, the predicate that its [parse]
    accepts. *)
Variable interactionSchema : Loaded JSON -> bool.
Variable SEQUENCER_URL : string.

(** [reduce((a, t) => assoc(t.name, t.value, a), {})] then [prop("Input")]. *)
Definition inputOf (ts : list Tag) : option string :=
  fold_left (fun (a : gmap string string) t => <[name t := tagValue t]> a) ts ∅
  !! "Input"%string.

(** [applySpec({ sortKey, action })]; [JSON.parse(undefined)] throws. *)
Definition toLoaded (i : Interaction) : option (Loaded JSON) :=
  input ← inputOf (tags i);
  parsed ← JSON_parse input;
  Some (mkLoaded (sortKey i) parsed).

(** The reducer of the transducer: [acc.unshift(input)]. *)
Definition unshiftStep (acc : option (list (Loaded JSON))) (i : Interaction)
    : option (list (Loaded JSON)) :=
  acc ← acc;
  input ← toLoaded i;
  Some (input :: acc).

Definition transduceInteractions (interactions : list Interaction)
    : option (list (Loaded JSON)) :=
  fold_left unshiftStep interactions (Some []).

Definition interactionsUrl (b : Bounds) : string :=
  SEQUENCER_URL +:+ "/gateway/v2/interactions-sort-key?contractId=" +:+ id b
  +:+ "&from=" +:+ template (from b) +:+ "&to=" +:+ template (to b).

Definition loadInteractions (ctx : Bounds) (su : Sequencer)
    : Sequencer * outcome (list (Loaded JSON)) :=
  let '(page, su') := fetch (interactionsUrl (mapBounds ctx)) su in
  match page with
  | None => (su', Rejected "interactionsPageSchema")
  | Some interactions =>
      match transduceInteractions interactions with
      | None => (su', Rejected "JSON.parse")
      | Some loaded =>
          if forallb interactionSchema loaded
          then (su', Resolved loaded)
          else (su', Rejected "interactionSchema")
      end
  end.

(** An interaction of the page is accepted when it carries an [Input] tag
    that parses and the parsed element satisfies [interactionSchema]. *)
Definition accepted (i : Interaction) : Prop :=
  exists x, toLoaded i = Some x /\ interactionSchema x = true.

End WithEnv.

(** Sort keys in non-increasing and in non-decreasing order. *)
Definition descending : list string -> Prop :=
  Sorted (fun a b => String.leb b a = true).

Definition ascending : list string -> Prop :=
  Sorted (fun a b => String.leb a b = true).

(** Scenario data: interactions whose [Input] is their own sort key, on a
    sequencer with plain strings for JSON. *)
Definition interactionAt (key : string) : Interaction :=
  mkInteraction [mkTag "Input" key] "block" 1257294 1694181441598 key.

Definition keyA : string := "000001257294,1694181441598,aa".
Definition keyB : string := "000001257295,1694181441599,bb".
Definition keyC : string := "000001257296,1694181441600,cc".
Definition keyD : string := "000001257297,1694181441601,dd".

Definition wholeRange : Bounds :=
  mkBounds "process-1" (Some "1257294"%string) (Some "1257297"%string).

Definition requestUrl : string :=
  "https://su.example/gateway/v2/interactions-sort-key?contractId=process-1&from=000001257294&to=000001257298".

End SuClient.

(** ** [ao-process.js]: positions, the memory cache and Checkpoints *)

Module AoProcess.
Import JS Async Model.

Definition bytes := list Byte.byte.

(** The two properties that [isLaterThan] reads from its arguments,
    whatever object they are. *)
Class Dated (A : Type) := {
  timestamp : A -> value;
  cron : A -> option string
}.

(** [{ timestamp, ordinate, cron }]. *)
Module Position.
Record t := mk {
  timestamp : value;
  ordinate : value;
  cron : option string
}.
End Position.

(** The [Evaluation] kept in the cache. *)
Module Evaluation.
Record t := mk {
  processId : string;
  moduleId : value;
  timestamp : value;
  epoch : value;
  nonce : value;
  blockHeight : value;
  ordinate : value;
  encoding : option string;
  cron : option string
}.
End Evaluation.

(** A value of the cache: [{ evaluation, Memory }]. *)
Module Entry.
Record t := mk {
  Memory : bytes;
  evaluation : Evaluation.t
}.
End Entry.

(** A GraphQL edge [{ node: { id, owner: { address }, tags } }]. *)
Record Edge := mkEdge {
  nodeId : string;
  ownerAddress : string;
  tags : list Tag
}.

(** What [determineLatestCheckpointBefore] plucks from a node. *)
Module Checkpoint.
Record t := mk {
  id : string;
  timestamp : option string;
  ordinate : option string;
  blockHeight : option string;
  cron : option string;
  encoding : option string
}.
End Checkpoint.

#[export] Instance position_dated : Dated Position.t :=
  {| timestamp := Position.timestamp; cron := Position.cron |}.

#[export] Instance evaluation_dated : Dated Evaluation.t :=
  {| timestamp := Evaluation.timestamp; cron := Evaluation.cron |}.

#[export] Instance checkpoint_dated : Dated Checkpoint.t :=
  {| timestamp := fun c => ofOptionString (Checkpoint.timestamp c);
     cron := Checkpoint.cron |}.

(** A cache value [{ evaluation, Memory }] has no property [timestamp]
    or [cron] of its own: reading them gives [undefined]. *)
#[export] Instance entry_dated : Dated Entry.t :=
  {| timestamp := fun _ => VUndefined; cron := fun _ => None |}.

(** The arguments of [saveLatestProcessMemory]. *)
Module Latest.
Record t := mk {
  processId : string;
  moduleId : value;
  messageId : value;
  timestamp : value;
  epoch : value;
  nonce : value;
  ordinate : value;
  cron : option string;
  blockHeight : value;
  Memory : bytes
}.
End Latest.

(** What [findProcessMemoryBefore] resolves to; [Memory] is [null]
    ([None]) on a cold start. *)
Module Found.
Record t := mk {
  Memory : option bytes;
  timestamp : value;
  blockHeight : value;
  cron : option string;
  ordinate : value
}.
End Found.

(** The object threaded through the stages of [findProcessMemoryBefore]. *)
Module Ctx.
Record t := mk {
  processId : value;
  timestamp : value;
  ordinate : value;
  cron : option string
}.
End Ctx.

Definition position (ctx : Ctx.t) : Position.t :=
  Position.mk (Ctx.timestamp ctx) (Ctx.ordinate ctx) (Ctx.cron ctx).

(** The two GraphQL operations sent to the gateway, with their variables. *)
Inductive Query :=
| GetAoProcessCheckpoints (processId : value) (limit : Z)
| GetAoProcessCheckpoint (withCron : bool) (owner processId nonce timestamp : string)
                         (cron : option string).

Section WithEnv.

Variable StringToNumber : string -> option Z.

(** [isLaterThan(eval1, eval2)]: whether [eval2] is later than [eval1]. *)
Definition isLaterThan {A B} `{Dated A} `{Dated B} (eval1 : A) (eval2 : B) : bool :=
  if strictEquals (timestamp eval2) (timestamp eval1)
  then stringGreaterThan (orEmpty (cron eval2)) (orEmpty (cron eval1))
  else greaterThan StringToNumber (timestamp eval2) (timestamp eval1).

(** [complement(isLaterThan)]. *)
Definition isEarlierThan {A B} `{Dated A} `{Dated B} (eval1 : A) (eval2 : B) : bool :=
  negb (isLaterThan eval1 eval2).

(** *** The process memory cache

    The cache is modelled by its contents, a finite map from process
    ids; the capacity and time-to-live policies of [lru-cache] are
    left out. *)

Variable gzip : bytes -> bytes.
Variable gunzip : bytes -> option bytes.

Definition saveLatestProcessMemory
    (cache : gmap string Entry.t) (args : Latest.t) : gmap string Entry.t :=
  let cached := cache !! Latest.processId args in
  let incoming :=
    Position.mk (Latest.timestamp args) (Latest.ordinate args) (Latest.cron args) in
  if match cached with
     | Some entry => isLaterThan entry incoming
     | None => false
     end
  then cache
  else
    <[Latest.processId args :=
        {| Entry.Memory := gzip (Latest.Memory args);
           Entry.evaluation :=
             {| Evaluation.processId := Latest.processId args;
                Evaluation.moduleId := Latest.moduleId args;
                Evaluation.timestamp := Latest.timestamp args;
                Evaluation.epoch := Latest.epoch args;
                Evaluation.nonce := Latest.nonce args;
                Evaluation.blockHeight := Latest.blockHeight args;
                Evaluation.ordinate := Latest.ordinate args;
                Evaluation.encoding := Some "gzip"%string;
                Evaluation.cron := Latest.cron args |} |}]> cache.

(** *** Checkpoint discovery *)

Definition pluckTagValue (n : string) (ts : list Tag) : option string :=
  tagValue <$> List.find (fun t => String.eqb (name t) n) ts.

Definition toCheckpoint (edge : Edge) : Checkpoint.t :=
  {| Checkpoint.id := nodeId edge;
     Checkpoint.timestamp := pluckTagValue "Timestamp" (tags edge);
     Checkpoint.ordinate := pluckTagValue "Nonce" (tags edge);
     Checkpoint.blockHeight := pluckTagValue "Block-Height" (tags edge);
     Checkpoint.cron := pluckTagValue "Cron-Interval" (tags edge);
     Checkpoint.encoding := pluckTagValue "Content-Encoding" (tags edge) |}.

(** The reducer of [determineLatestCheckpointBefore]. *)
Definition latestCheckpointStep (requested : Position.t)
    (latest : option Checkpoint.t) (checkpoint : Checkpoint.t) : option Checkpoint.t :=
  match latest with
  | None => Some checkpoint
  | Some l =>
      if isLaterThan requested checkpoint then Some l
      else if isEarlierThan l checkpoint then Some l
      else Some checkpoint
  end.

Definition determineLatestCheckpointBefore
    (requested : Position.t) (edges : list Edge) : option Checkpoint.t :=
  fold_left (latestCheckpointStep requested) (toCheckpoint <$> edges) None.

Variable COLLATION_SEQUENCE_MIN_CHAR : string.
Variable queryGateway : Query -> option (list Edge).
Variable loadTransactionData : string -> option bytes.

(** [decodeData(encoding)(data)]; the outer call throws on an
    encoding other than gzip. *)
Definition supportedEncoding (enc : option string) : bool :=
  match enc with
  | Some e => negb (truthy e) || String.eqb e "gzip"
  | None => true
  end.

Definition decodeData (enc : option string) (data : bytes) : option bytes :=
  if truthy (orEmpty enc) then gunzip data else Some data.

(** The rejected branch carries the context on a miss, and the error
    of [gunzip] when the cached memory does not inflate; the
    properties later read from that error are [undefined]. *)
Definition maybeCached (cache : gmap string Entry.t) (processId : string) (ctx : Ctx.t)
    : Found.t + Ctx.t :=
  match cache !! processId with
  | None => inr ctx
  | Some cached =>
      if valueTruthy (Ctx.timestamp ctx)
         && isLaterThan (position ctx) (Entry.evaluation cached)
      then inr ctx
      else
        match gunzip (Entry.Memory cached) with
        | Some Memory =>
            inl {| Found.Memory := Some Memory;
                   Found.timestamp := Evaluation.timestamp (Entry.evaluation cached);
                   Found.blockHeight := Evaluation.blockHeight (Entry.evaluation cached);
                   Found.cron := Evaluation.cron (Entry.evaluation cached);
                   Found.ordinate := Evaluation.ordinate (Entry.evaluation cached) |}
        | None => inr (Ctx.mk VUndefined VUndefined VUndefined None)
        end
  end.

Definition maybeCheckpointFromArweave (ctx : Ctx.t) : outcome Found.t :=
  match queryGateway (GetAoProcessCheckpoints (Ctx.processId ctx) 50) with
  | None => Rejected "queryGateway"
  | Some edges =>
      match determineLatestCheckpointBefore (position ctx) edges with
      | None => Rejected "no checkpoint"
      | Some latestCheckpoint =>
          if negb (supportedEncoding (Checkpoint.encoding latestCheckpoint))
          then Thrown "Only GZIP encoding is currently supported for Process Memory Snapshot"
          else
            match loadTransactionData (Checkpoint.id latestCheckpoint) with
            | None => Rejected "loadTransactionData"
            | Some data =>
                match decodeData (Checkpoint.encoding latestCheckpoint) data with
                | None => Rejected "gunzip"
                | Some Memory =>
                    Resolved
                      {| Found.Memory := Some Memory;
                         Found.timestamp :=
                           ofOptionString (Checkpoint.timestamp latestCheckpoint);
                         Found.blockHeight :=
                           ofOptionString (Checkpoint.blockHeight latestCheckpoint);
                         Found.cron := Checkpoint.cron latestCheckpoint;
                         Found.ordinate :=
                           ofOptionString (Checkpoint.ordinate latestCheckpoint) |}
                end
            end
      end
  end.

Definition coldStart : Found.t :=
  {| Found.Memory := None;
     Found.timestamp := VUndefined;
     Found.blockHeight := VUndefined;
     Found.cron := None;
     Found.ordinate := VString COLLATION_SEQUENCE_MIN_CHAR |}.

(** [of(ctx).chain(maybeCached).bichain(maybeCheckpointFromArweave,
    Resolved).bichain(coldStart, Resolved)]. *)
Definition findProcessMemoryBefore (cache : gmap string Entry.t)
    (processId : string) (requested : Position.t) : outcome Found.t :=
  let ctx := Ctx.mk (VString processId) (Position.timestamp requested)
                    (Position.ordinate requested) (Position.cron requested) in
  match maybeCached cache processId ctx with
  | inl found => Resolved found
  | inr ctx' =>
      match maybeCheckpointFromArweave ctx' with
      | Resolved found => Resolved found
      | Rejected _ => Resolved coldStart
      | Thrown e => Thrown e
      end
  end.

End WithEnv.

(** *** Checkpoint publication *)

(** The arguments of [saveCheckpoint]. *)
Module Save.
Record t := mk {
  Memory : bytes;
  encoding : option string;
  processId : string;
  moduleId : string;
  timestamp : value;
  epoch : value;
  nonce : value;
  blockHeight : value;
  cron : option string
}.
End Save.

Record DataItem := mkDataItem {
  data : bytes;
  itemTags : list Tag
}.

(** What [buildAndSignDataItem] resolves to. *)
Record Signed := mkSigned {
  signedId : string;
  signedData : bytes
}.

(** The calls [saveCheckpoint] makes to its dependencies, in order. *)
Inductive Call :=
| CallAddress
| CallQueryGateway (q : Query)
| CallHashWasmMemory (Memory : bytes) (encoding : option string)
| CallBuildAndSignDataItem (item : DataItem)
| CallUploadDataItem (data : bytes).

Section Publish.

Variable address : option string.
Variable queryGateway : Query -> option (list Edge).
Variable hashWasmMemory : bytes -> option string -> option string.
Variable buildAndSignDataItem : DataItem -> option Signed.
Variable uploadDataItem : bytes -> option string.

Definition checkpointTags (args : Save.t) (sha : string) : list Tag :=
  [ mkTag "Data-Protocol" "ao";
    mkTag "Variant" "ao.TN.1";
    mkTag "Type" "Checkpoint";
    mkTag "Module" (trim (Save.moduleId args));
    mkTag "Process" (trim (Save.processId args));
    mkTag "Epoch" (trim (templateString (Save.epoch args)));
    mkTag "Nonce" (trim (templateString (Save.nonce args)));
    mkTag "Timestamp" (trim (templateString (Save.timestamp args)));
    mkTag "Block-Height" (trim (templateString (Save.blockHeight args)));
    mkTag "Content-Type" "application/octet-stream";
    mkTag "SHA-256" sha ]
  ++ (if truthy (orEmpty (Save.cron args))
      then [mkTag "Cron-Interval" (orEmpty (Save.cron args))] else [])
  ++ (if truthy (orEmpty (Save.encoding args))
      then [mkTag "Content-Encoding" (orEmpty (Save.encoding args))] else []).

(** [createCheckpointDataItem]: hash the memory, build the tagged data
    item, sign it. *)
Definition createCheckpointDataItem (args : Save.t) : list Call * outcome Signed :=
  let hashed := CallHashWasmMemory (Save.Memory args) (Save.encoding args) in
  match hashWasmMemory (Save.Memory args) (Save.encoding args) with
  | None => ([hashed], Rejected "hashWasmMemory")
  | Some sha =>
      let dataItem := mkDataItem (Save.Memory args) (checkpointTags args sha) in
      let signed := CallBuildAndSignDataItem dataItem in
      match buildAndSignDataItem dataItem with
      | None => ([hashed; signed], Rejected "buildAndSignDataItem")
      | Some item => ([hashed; signed], Resolved item)
      end
  end.

(** The branch taken when no Checkpoint exists yet: create the data item
    and upload it. *)
Definition createAndUpload (args : Save.t) : list Call * outcome unit :=
  match createCheckpointDataItem args with
  | (made, Resolved item) =>
      let uploaded := made ++ [CallUploadDataItem (signedData item)] in
      match uploadDataItem (signedData item) with
      | None => (uploaded, Rejected "uploadDataItem")
      | Some _ => (uploaded, Resolved tt)
      end
  | (made, Rejected e) => (made, Rejected e)
  | (made, Thrown e) => (made, Thrown e)
  end.

(** The query sent first, with its variables. *)
Definition existingCheckpointQuery (owner : string) (args : Save.t) : Query :=
  GetAoProcessCheckpoint
    (truthy (orEmpty (Save.cron args)))
    owner
    (Save.processId args)
    (templateString (Save.nonce args))
    (templateString (Save.timestamp args))
    (Save.cron args).

Definition saveCheckpoint (args : Save.t) : list Call * outcome unit :=
  match address with
  | None => ([CallAddress], Rejected "address")
  | Some owner =>
      let q := existingCheckpointQuery owner args in
      match queryGateway q with
      | None => ([CallAddress; CallQueryGateway q], Rejected "queryGateway")
      | Some edges =>
          match edges with
          | checkpoint :: _ =>
              ([CallAddress; CallQueryGateway q], Resolved tt)
          | [] =>
              let '(calls, result) := createAndUpload args in
              ([CallAddress; CallQueryGateway q] ++ calls, result)
          end
      end
  end.

End Publish.

(** Scenario data: the evaluation of a cron message and a Checkpoint
    already published for it. *)
Definition cronEvaluation : Save.t :=
  Save.mk [] (Some "gzip"%string) "process-1" "module-1" (VNumber 1700000000000)
          (VNumber 0) (VNumber 7) (VNumber 1300000) (Some "10-minutes"%string).

Definition publishedCheckpoint : Edge := mkEdge "checkpoint-7" "owner-1" [].

End AoProcess.

(** ** [hydrateMessages.js]: the deep hash of forwarded messages *)

Module Hydrate.
Import JS Async Model.

(** The properties of [cur.message] that [maybeMessageId] reads. *)
Record Message := mkMessage {
  Id : option string;
  Data : string;
  Tags : list Tag;
  Target : option string;
  Anchor : option string;
  Forwarded_By : option string;
  Forwarded_For : option string
}.

(** An element of the stream. *)
Record Cur := mkCur {
  sortKey : string;
  deepHash : option string;
  message : Message
}.

(** [cur.deepHash = hash]. *)
Definition setDeepHash (cur : Cur) (hash : string) : Cur :=
  {| sortKey := sortKey cur; deepHash := Some hash; message := message cur |}.

(** What an async generator has produced when it ends: the elements
    yielded, and the error thrown if it ended by throwing. *)
Definition Stream : Type := list Cur * option error.

Section WithEnv.

(** [calcDataItemDeepHash({ data, tags, target, anchor })], [None] when
    the data item cannot be built. *)
Variable calcDataItemDeepHash :
  string -> list Tag -> option string -> option string -> option string.

(** [cur.message['Forwarded-By']] is truthy. *)
Definition forwardedBy (cur : Cur) : bool :=
  truthy (orEmpty (Forwarded_By (message cur))).

Definition deepHashOf (cur : Cur) : option string :=
  calcDataItemDeepHash (Data (message cur)) (Tags (message cur))
                       (Target (message cur)) (Anchor (message cur)).

Fixpoint maybeMessageId (messages : list Cur) : Stream :=
  match messages with
  | [] => ([], None)
  | cur :: rest =>
      if negb (forwardedBy cur)
      then let '(yielded, thrown) := maybeMessageId rest in (cur :: yielded, thrown)
      else
        match deepHashOf cur with
        | Some hash =>
            let '(yielded, thrown) := maybeMessageId rest in
            (setDeepHash cur hash :: yielded, thrown)
        | None => ([], Some "calcDataItemDeepHash"%string)
        end
  end.

(** What [maybeMessageId] makes of one message when it does not throw. *)
Definition hydrated (cur out : Cur) : Prop :=
  if forwardedBy cur
  then exists hash, deepHashOf cur = Some hash /\ out = setDeepHash cur hash
  else out = cur.

(** The deep hash of every forwarded message of the list can be computed. *)
Definition hashable (messages : list Cur) : Prop :=
  Forall (fun cur => forwardedBy cur = true -> is_Some (deepHashOf cur)) messages.

End WithEnv.

(** Scenario data. *)
Definition forwardedForOnly : Cur :=
  mkCur "000001257294,1694181441598,aa" None
        (mkMessage (Some "message-1") "data" [] (Some "process-1") None
                   None (Some "process-0"%string)).

Definition forwardedByOnly : Cur :=
  mkCur "000001257295,1694181441599,bb" None
        (mkMessage (Some "message-2") "data" [] (Some "process-1") None
                   (Some "messenger-1"%string) None).

End Hydrate.

(** ** The messenger unit's sequencer client *)

Module MuSequencer.
Import JS Async.

Definition bytes := list Byte.byte.

Record Request := mkRequest {
  url : string;
  method : string;
  headers : list (string * string);
  body : bytes
}.

Record Response (JSON : Type) := mkResponse {
  ok : bool;
  status : Z;
  text : string;
  json : option JSON
}.

Arguments mkResponse {JSON} ok status text json.
Arguments ok {JSON} r.
Arguments status {JSON} r.
Arguments text {JSON} r.
Arguments json {JSON} r.

(** [fromPromise(f)(x)] of [hyper-async] calls [f(x).then(...)]: when [f]
    returned a promise the pipeline continues with its settlement; when
    [f] returned [undefined] ([None]) the call throws a [TypeError]. *)
Definition fromPromise {A} (returned : option (outcome A)) : outcome A :=
  match returned with
  | Some settled => settled
  | None => Thrown "TypeError: Cannot read properties of undefined (reading 'then')"
  end.

Section WithEnv.

Variable JSON : Type.
(** What the sequencer answers to a request. *)
Variable fetch : Request -> outcome (Response JSON).
(** [Buffer.from(data, 'base64')]. *)
Variable fromBase64 : string -> bytes.
Variable SEQUENCER_URL : string.

Definition messageRequest (body : bytes) : Request :=
  {| url := SEQUENCER_URL +:+ "/message";
     method := "POST";
     headers := [("Content-Type", "application/octet-stream");
                 ("Accept", "application/json")]%string;
     body := body |}.

(** The function given to the first [fromPromise]: its body is a block
    that calls [fetch] and returns nothing, so the request is sent and
    the value returned is [undefined]. *)
Definition postMessage (body : bytes)
    : list Request * option (outcome (Response JSON)) :=
  let request := messageRequest body in
  let _response := fetch request in
  ([request], None).

(** The function given to the second [fromPromise]. *)
Definition readResponse (res : Response JSON) : outcome JSON :=
  if negb (ok res)
  then Rejected (numberToString (Some (status res)) +:+ ": " +:+ text res)
  else match json res with
       | Some parsed => Resolved parsed
       | None => Rejected "SyntaxError"
       end.

Definition writeMessage (data : string) : list Request * outcome JSON :=
  let '(sent, returned) := postMessage (fromBase64 data) in
  (sent,
   match fromPromise returned with
   | Resolved res => readResponse res
   | Rejected err => Rejected "{}"
   | Thrown e => Thrown e
   end).

End WithEnv.

End MuSequencer.

(** ** The messenger unit's monitor worker *)

Module Monitor.
Import JS Async.

(** [monitorSchema]. *)
Record Monitor := mkMonitor {
  id : string;
  authorized : bool;
  lastFromSortKey : option string;
  interval : string;
  createdAt : Z
}.

(** [monitor.lastFromSortKey = key]. *)
Definition setLastFromSortKey (monitor : Monitor) (key : option string) : Monitor :=
  {| id := id monitor;
     authorized := authorized monitor;
     lastFromSortKey := key;
     interval := interval monitor;
     createdAt := createdAt monitor |}.

(** A scheduled message as the compute unit lists it: its
    [scheduledSortKey] and the rest of its properties. *)
Record Scheduled := mkScheduled {
  scheduledSortKey : option string;
  rest : string
}.

(** What [fetchScheduled] returns: [undefined] when the request or the
    parsing of its body throws, otherwise the parsed body, which is a
    falsy value, an array, or another value with or without a [length]. *)
Inductive Fetched :=
| FetchedUndefined
| FetchedFalsy
| FetchedArray (scheduled : list Scheduled)
| FetchedOther (length : option Z).

(** The document given to [saveMsg]. *)
Record Saved := mkSaved {
  savedId : string;
  fromTxId : string;
  msg : string;
  cachedAt : Z
}.

(** The calls of a run, in order. *)
Inductive Call :=
| CallFetch (url : string)
| CallSaveMsg (doc : Saved)
| CallFindLatestMsgs (fromTxId : string)
| CallCrankMsgs (msgs : list Saved)
| CallUpdateMonitor (monitor : Monitor).

(** What [processMonitor] returns when it does not throw. *)
Inductive Returned :=
| ReturnedEmpty
| ReturnedOk.

(** The state a run leaves: the in-flight list (read through [item.id]
    only, so kept as ids), the monitor object, the calls made, and how
    the promise settles. *)
Record Run := mkRun {
  runningMonitorList : list string;
  monitor : Monitor;
  calls : list Call;
  settled : outcome Returned
}.

Section WithEnv.

Variable CU_URL : string.
(** The answer of the compute unit to a request. *)
Variable fetchJson : string -> Fetched.
(** The successive values of [Math.floor(Math.random() * 1e18).toString()]. *)
Variable random : nat -> string.
(** [new Date()]. *)
Variable now : Z.
(** Whether each call to the data store and to the cranker resolves. *)
Variable saveMsg : Saved -> bool.
Variable findLatestMsgs : string -> option (list Saved).
Variable crankMsgs : list Saved -> bool.
Variable updateMonitor : Monitor -> bool.

Definition scheduledUrl (m : Monitor) : string :=
  if truthy (orEmpty (lastFromSortKey m))
  then CU_URL +:+ "/scheduled/" +:+ id m +:+ "?from=" +:+ orEmpty (lastFromSortKey m)
  else CU_URL +:+ "/scheduled/" +:+ id m.

Definition fetchScheduled (m : Monitor) : list Call * Fetched :=
  ([CallFetch (scheduledUrl m)], fetchJson (scheduledUrl m)).

(** [!scheduled || scheduled.length < 1]. *)
Definition nothingScheduled (scheduled : Fetched) : bool :=
  match scheduled with
  | FetchedUndefined | FetchedFalsy => true
  | FetchedArray l => (Z.of_nat (length l) <? 1)
  | FetchedOther (Some n) => n <? 1
  | FetchedOther None => false
  end.

(** The documents built by [scheduled.map(...)]: the [k]-th message gets
    the [k+1]-th random id, the batch id being drawn first. *)
Fixpoint documents (batch : string) (k : nat) (scheduled : list Scheduled) : list Saved :=
  match scheduled with
  | [] => []
  | m :: ms => mkSaved (random k) batch (rest m) now :: documents batch (S k) ms
  end.

Definition processMonitor (running : list string) (m : Monitor) : Run :=
  let running := running ++ [id m] in
  let '(fetched, scheduled) := fetchScheduled m in
  if nothingScheduled scheduled
  then mkRun running m fetched (Resolved ReturnedEmpty)
  else
    match scheduled with
    | FetchedArray batch =>
        let fromTxId := ("scheduled-" +:+ random 0)%string in
        let docs := documents fromTxId 1 batch in
        let saved := fetched ++ (CallSaveMsg <$> docs) in
        if negb (forallb saveMsg docs)
        then mkRun running m saved (Rejected "saveMsg")
        else
          let found := saved ++ [CallFindLatestMsgs fromTxId] in
          match findLatestMsgs fromTxId with
          | None => mkRun running m found (Rejected "findLatestMsgs")
          | Some dbMsgs =>
              let cranked := found ++ [CallCrankMsgs dbMsgs] in
              if negb (crankMsgs dbMsgs)
              then mkRun running m cranked (Rejected "crankMsgs")
              else
                match last batch with
                | None => mkRun running m cranked (Rejected "TypeError")
                | Some lastScheduled =>
                    let m' := setLastFromSortKey m (scheduledSortKey lastScheduled) in
                    let updated := cranked ++ [CallUpdateMonitor m'] in
                    if updateMonitor m'
                    then mkRun running m' updated (Resolved ReturnedOk)
                    else mkRun running m' updated (Rejected "updateMonitor")
                end
          end
    | _ => mkRun running m fetched (Rejected "TypeError: scheduled.map is not a function")
    end.

(** The calls of a run that reaches [updateMonitor], in order. *)
Definition completeCalls (m m' : Monitor) (batch : list Scheduled) (dbMsgs : list Saved)
    : list Call :=
  [CallFetch (scheduledUrl m)]
  ++ (CallSaveMsg <$> documents ("scheduled-" +:+ random 0) 1 batch)
  ++ [CallFindLatestMsgs ("scheduled-" +:+ random 0);
      CallCrankMsgs dbMsgs;
      CallUpdateMonitor m'].

End WithEnv.

(** Scenario data: a monitor that has not run yet and a batch of two
    scheduled messages. *)
Definition freshMonitor : Monitor := mkMonitor "process-1" true None "1-minute" 0.

Definition twoScheduled : list Scheduled :=
  [mkScheduled (Some "000001257294,1694181441598,aa"%string) "first";
   mkScheduled (Some "000001257295,1694181441599,bb"%string) "second"].

End Monitor.

(** ** [ao-process.js]: the order on Checkpoints *)

Module CheckpointOrder.
Import JS AoProcess.

(** The order that [isLaterThan] computes between two Checkpoints, whose
    timestamps are tag values: strings, or [undefined] when the tag is
    missing. *)
Definition checkpointBefore (a b : Checkpoint.t) : Prop :=
  (Checkpoint.timestamp a = Checkpoint.timestamp b
   /\ String.compare (orEmpty (Checkpoint.cron a)) (orEmpty (Checkpoint.cron b)) = Lt)
  \/ (exists x y, Checkpoint.timestamp a = Some x /\ Checkpoint.timestamp b = Some y
                  /\ String.compare x y = Lt).

End CheckpointOrder.

(** ** The monitor worker: the in-flight list across ticks *)

Module MonitorLoop.
Import JS Async Monitor.

(** [runningMonitorList.findIndex(item => item.id === id)], [None] for -1. *)
Fixpoint findIndex (running : list string) (monitorId : string) : option nat :=
  match running with
  | [] => None
  | item :: items =>
      if String.eqb item monitorId then Some 0%nat
      else S <$> findIndex items monitorId
  end.

Definition shouldRun (running : list string) (m : Monitor) : bool :=
  match findIndex running (id m) with
  | Some _ => false
  | None => true
  end.

(** The callback given to [processMonitor(monitor).then]: the first entry
    with the id of the monitor is spliced out. *)
Definition release (running : list string) (m : Monitor) : list string :=
  match findIndex running (id m) with
  | Some indexToRemove => delete indexToRemove running
  | None => running
  end.

(** One pass of [monitorList.map] in [processMonitors], as far as the
    in-flight list goes: a monitor that passes [monitorSchema] ([Some]) and
    should run is pushed by [processMonitor] before its first [await]. *)
Definition startAll (running : list string) (monitorList : list (option Monitor))
    : list string :=
  fold_left
    (fun running monitor =>
       match monitor with
       | Some m => if shouldRun running m then running ++ [id m] else running
       | None => running
       end)
    monitorList running.

(** What happens to the in-flight list: a tick of [processMonitors], whose
    [findLatestMonitors] resolves to a list or throws ([None]), and the
    settlement of a run, whose [then] callback runs only when the run
    resolved. *)
Inductive Event :=
| Tick (monitorList : option (list (option Monitor)))
| Settled (m : Monitor) (resolved : bool).

Definition step (running : list string) (e : Event) : list string :=
  match e with
  | Tick None => running
  | Tick (Some monitorList) => startAll running monitorList
  | Settled m true => release running m
  | Settled m false => running
  end.

(** No event of the list is the resolution of a run of the monitor with
    this id. *)
Definition neverReleases (monitorId : string) (events : list Event) : Prop :=
  Forall (fun e =>
            match e with
            | Settled m true => id m <> monitorId
            | _ => True
            end) events.

(** The in-flight list after a run has settled. *)
Definition afterRun (run : Run) (m : Monitor) : list string :=
  match settled run with
  | Resolved _ => release (runningMonitorList run) m
  | _ => runningMonitorList run
  end.

End MonitorLoop.

(** ** [hydrateMessages.js]: data loaded from chain *)

Module HydrateChain.
Import JS Async Model.

(** What [loadTransactionMeta] resolves to, as far as it is read. *)
Record Meta := mkMeta {
  metaId : option string;
  metaSignature : option string;
  ownerAddress : string;
  metaTags : list Tag;
  metaAnchor : option string
}.

(** What [loadFromChain] resolves to. *)
Record ChainItem := mkChainItem {
  itemId : option string;
  itemSignature : option string;
  itemOwner : string;
  itemFrom : string;
  itemTags : list Tag;
  itemAnchor : option string;
  itemData : string
}.

(** [cur.message.Data]: the data the message came with, or the item that
    [maybeAoLoad] put in its place. *)
Inductive DataValue :=
| Inline (data : string)
| Loaded (item : ChainItem).

(** The properties of [cur.message] read or written by [maybeAoLoad] and
    [maybeAoAssignment]. *)
Record Message := mkMessage {
  Id : option string;
  Signature : option string;
  Owner : option string;
  From : option string;
  Data : DataValue;
  Tags : list Tag;
  Target : option string;
  Anchor : option string;
  Cron : bool;
  Forwarded_By : option string;
  Forwarded_For : option string
}.

Record Cur := mkCur {
  sortKey : string;
  deepHash : option string;
  isAssignment : bool;
  blockHeight : Z;
  message : Message
}.

Definition setMessage (cur : Cur) (m : Message) : Cur :=
  {| sortKey := sortKey cur; deepHash := deepHash cur;
     isAssignment := isAssignment cur; blockHeight := blockHeight cur;
     message := m |}.

(** [cur.message.Data = item]. *)
Definition setData (cur : Cur) (item : ChainItem) : Cur :=
  let m := message cur in
  setMessage cur
    {| Id := Id m; Signature := Signature m; Owner := Owner m; From := From m;
       Data := Loaded item; Tags := Tags m; Target := Target m;
       Anchor := Anchor m; Cron := Cron m;
       Forwarded_By := Forwarded_By m; Forwarded_For := Forwarded_For m |}.

(** [mergeRight(cur.message, item)]: the seven properties of the item
    replace those of the message. *)
Definition mergeRight (m : Message) (item : ChainItem) : Message :=
  {| Id := itemId item; Signature := itemSignature item;
     Owner := Some (itemOwner item); From := Some (itemFrom item);
     Data := Inline (itemData item); Tags := itemTags item;
     Target := Target m; Anchor := itemAnchor item; Cron := Cron m;
     Forwarded_By := Forwarded_By m; Forwarded_For := Forwarded_For m |}.

Definition Stream : Type := list Cur * option error.

Section WithEnv.

(** The two gateway calls, [None] when they reject. *)
Variable loadTransactionData : string -> option string.
Variable loadTransactionMeta : string -> option Meta.
(** [bytesToBase64]. *)
Variable bytesToBase64 : string -> string.
(** [findRawTag] is declared in a [utils.js] that is not among the
    sources: it is a parameter here. *)
Variable findRawTag : string -> list Tag -> option Tag.
Variable AO_LOAD_MAX_BLOCK : Z.

(** [loadFromChain(id, encodeData)]: both calls must resolve; an id that
    is not a string ([None]) is refused by the argument schema of the
    calls. *)
Definition loadFromChain (txId : option string) (encodeData : bool) : option ChainItem :=
  match txId with
  | None => None
  | Some txId =>
      match loadTransactionData txId, loadTransactionMeta txId with
      | Some data, Some meta =>
          Some {| itemId := metaId meta;
                  itemSignature := metaSignature meta;
                  itemOwner := ownerAddress meta;
                  itemFrom := ownerAddress meta;
                  itemTags := metaTags meta;
                  itemAnchor := metaAnchor meta;
                  itemData := if encodeData then bytesToBase64 data else data |}
      | _, _ => None
      end
  end.

Fixpoint maybeAoLoad (messages : list Cur) : Stream :=
  match messages with
  | [] => ([], None)
  | cur :: rest =>
      match findRawTag "Load" (Tags (message cur)) with
      | Some tag =>
          if Cron (message cur)
          then let '(yielded, thrown) := maybeAoLoad rest in (cur :: yielded, thrown)
          else if AO_LOAD_MAX_BLOCK <=? blockHeight cur
          then maybeAoLoad rest
          else
            match loadFromChain (Some (tagValue tag)) true with
            | Some item =>
                let '(yielded, thrown) := maybeAoLoad rest in
                (setData cur item :: yielded, thrown)
            | None => ([], Some "loadFromChain"%string)
            end
      | None =>
          let '(yielded, thrown) := maybeAoLoad rest in (cur :: yielded, thrown)
      end
  end.

Fixpoint maybeAoAssignment (messages : list Cur) : Stream :=
  match messages with
  | [] => ([], None)
  | cur :: rest =>
      if negb (isAssignment cur)
      then let '(yielded, thrown) := maybeAoAssignment rest in (cur :: yielded, thrown)
      else
        match loadFromChain (Id (message cur)) false with
        | Some item =>
            let '(yielded, thrown) := maybeAoAssignment rest in
            (setMessage cur (mergeRight (message cur) item) :: yielded, thrown)
        | None => ([], Some "loadFromChain"%string)
        end
  end.

(** A message that [maybeAoLoad] treats as an ao-load message. *)
Definition isLoad (cur : Cur) : bool :=
  match findRawTag "Load" (Tags (message cur)) with
  | Some _ => negb (Cron (message cur))
  | None => false
  end.

(** An ao-load message scheduled at or after the cut-off block. *)
Definition sunset (cur : Cur) : bool :=
  isLoad cur && (AO_LOAD_MAX_BLOCK <=? blockHeight cur).

(** What [maybeAoLoad] makes of a message it keeps. *)
Definition loaded (cur out : Cur) : Prop :=
  if isLoad cur
  then exists tag item,
         findRawTag "Load" (Tags (message cur)) = Some tag
         /\ loadFromChain (Some (tagValue tag)) true = Some item
         /\ out = setData cur item
  else out = cur.

(** The data of every ao-load message before the cut-off can be loaded. *)
Definition loadable (messages : list Cur) : Prop :=
  Forall (fun cur =>
            isLoad cur = true -> sunset cur = false ->
            exists tag item,
              findRawTag "Load" (Tags (message cur)) = Some tag
              /\ loadFromChain (Some (tagValue tag)) true = Some item)
         messages.

(** What [maybeAoAssignment] makes of a message: an assignment takes its
    id, signature, tags, anchor and data from the transaction on chain,
    and the address of the owner of that transaction as both its owner
    and its sender. *)
Definition assigned (cur out : Cur) : Prop :=
  if isAssignment cur
  then exists txId data meta,
         Id (message cur) = Some txId
         /\ loadTransactionData txId = Some data
         /\ loadTransactionMeta txId = Some meta
         /\ sortKey out = sortKey cur /\ deepHash out = deepHash cur
         /\ isAssignment out = true /\ blockHeight out = blockHeight cur
         /\ Target (message out) = Target (message cur)
         /\ Cron (message out) = Cron (message cur)
         /\ Forwarded_By (message out) = Forwarded_By (message cur)
         /\ Forwarded_For (message out) = Forwarded_For (message cur)
         /\ Owner (message out) = Some (ownerAddress meta)
         /\ From (message out) = Some (ownerAddress meta)
         /\ Id (message out) = metaId meta
         /\ Signature (message out) = metaSignature meta
         /\ Tags (message out) = metaTags meta
         /\ Anchor (message out) = metaAnchor meta
         /\ Data (message out) = Inline data
  else out = cur.

(** The transaction of every assignment of the list can be loaded. *)
Definition assignable (messages : list Cur) : Prop :=
  Forall (fun cur => isAssignment cur = true ->
                     is_Some (loadFromChain (Id (message cur)) false))
         messages.

End WithEnv.

(** Scenario data: a cut-off at block 200; a message with no [Load] tag,
    an ao-load message below the cut-off, one at the cut-off, and an
    assignment. *)
Definition findByName (n : string) (ts : list Tag) : option Tag :=
  List.find (fun t => String.eqb (name t) n) ts.

Definition messageWith (txId : string) (ts : list Tag) : Message :=
  mkMessage (Some txId) None (Some "owner-1"%string) (Some "owner-1"%string)
            (Inline "data") ts (Some "process-1"%string) None false None None.

Definition plainMessage : Cur :=
  mkCur "000000000100,1,aa" None false 100 (messageWith "message-1" []).

Definition loadBelow : Cur :=
  mkCur "000000000199,2,bb" None false 199
        (messageWith "message-2" [mkTag "Load" "transaction-2"]).

Definition loadAtCutOff : Cur :=
  mkCur "000000000200,3,cc" None false 200
        (messageWith "message-3" [mkTag "Load" "transaction-3"]).

Definition assignment : Cur :=
  mkCur "000000000201,4,dd" None true 201 (messageWith "transaction-4" []).

Definition onChain : string -> option Meta :=
  fun txId => Some (mkMeta (Some txId) (Some "signature"%string) "owner-9" [] None).

End HydrateChain.

(** ** The messenger unit's configuration: the port *)

Module Config.
Import JS.





End Config.

(** * Properties *)

(** ** Strings *)

Module JSFacts.
Import JS.

Lemma split_not_nil (s : string) : split s <> [].
Proof.
  destruct s as [|c s]; simpl; [discriminate|].
  destruct (isComma c); [discriminate|].
  destruct (split s); discriminate.
Qed.

Lemma join_split (s : string) : join (split s) = s.
Proof.
  induction s as [|c s IH]; simpl; [reflexivity|].
  destruct (isComma c) eqn:Hc.
  - apply Ascii.eqb_eq in Hc. subst c.
    pose proof (split_not_nil s) as Hne.
    destruct (split s) as [|f fs]; [congruence|].
    change (join (EmptyString :: f :: fs)) with (String comma (join (f :: fs))).
    now rewrite IH.
  - pose proof (split_not_nil s) as Hne.
    destruct (split s) as [|f fs]; [congruence|].
    destruct fs as [|g gs]; [simpl in *; congruence|].
    change (join (String c f :: g :: gs)) with (String c (join (f :: g :: gs))).
    now rewrite IH.
Qed.

Lemma noComma_app (s t : string) :
  noComma (s +:+ t) = noComma s && noComma t.
Proof.
  induction s as [|c s IH]; simpl; [reflexivity|].
  now rewrite IH, andb_assoc.
Qed.

Lemma noComma_replicate (n : nat) (c : ascii) :
  isComma c = false -> noComma (replicate n c) = true.
Proof. intros Hc. induction n; simpl; [reflexivity|]. now rewrite Hc. Qed.

Lemma noComma_padStart (n : nat) (s : string) :
  noComma s = true -> noComma (padStart n "0" s) = true.
Proof.
  intros Hs. unfold padStart.
  rewrite noComma_app, Hs, noComma_replicate; reflexivity.
Qed.

(** Splitting a field without comma followed by a comma and a rest. *)
Lemma split_field (field rest : string) :
  noComma field = true ->
  split (field +:+ String comma rest) = field :: split rest.
Proof.
  induction field as [|c field IH]; simpl; intros Hf; [reflexivity|].
  apply andb_true_iff in Hf as [Hc Hf].
  apply negb_true_iff in Hc. rewrite Hc, (IH Hf). reflexivity.
Qed.

Lemma split_single (field : string) :
  noComma field = true -> split field = [field].
Proof.
  induction field as [|c field IH]; simpl; intros Hf; [reflexivity|].
  apply andb_true_iff in Hf as [Hc Hf].
  apply negb_true_iff in Hc. rewrite Hc, (IH Hf). reflexivity.
Qed.

Lemma length_replicate (n : nat) (c : ascii) :
  String.length (replicate n c) = n.
Proof. induction n; simpl; congruence. Qed.

Lemma length_append (s t : string) :
  String.length (s +:+ t) = (String.length s + String.length t)%nat.
Proof. induction s as [|c s IH]; simpl; [reflexivity | now rewrite IH]. Qed.

Lemma length_padStart (n : nat) (c : ascii) (s : string) :
  String.length (padStart n c s) = Nat.max n (String.length s).
Proof.
  unfold padStart. rewrite length_append, length_replicate. lia.
Qed.

Lemma padStart_long (n : nat) (c : ascii) (s : string) :
  (n <= String.length s)%nat -> padStart n c s = s.
Proof.
  intros Hn. unfold padStart.
  replace (n - String.length s)%nat with 0%nat by lia. reflexivity.
Qed.

Lemma padStart_idempotent (n : nat) (c : ascii) (s : string) :
  padStart n c (padStart n c s) = padStart n c s.
Proof. apply padStart_long. rewrite length_padStart. lia. Qed.

Lemma truthy_padStart (s : string) : truthy (padStart 12 "0" s) = true.
Proof.
  pose proof (length_padStart 12 "0" s) as Hl.
  destruct (padStart 12 "0" s); [simpl in Hl; lia | reflexivity].
Qed.

Lemma truthy_app (s t : string) : truthy t = true -> truthy (s +:+ t) = true.
Proof. destruct s; simpl; auto. Qed.

Lemma join_cons (field : string) (fields : list string) :
  fields <> [] -> join (field :: fields) = field +:+ String comma (join fields).
Proof. destruct fields; [congruence | reflexivity]. Qed.

Lemma split_head_noComma (s head : string) (rest : list string) :
  split s = head :: rest -> noComma head = true.
Proof.
  revert head rest. induction s as [|c s IH]; simpl; intros head rest Hs.
  - now inversion Hs.
  - destruct (isComma c) eqn:Hc; [now inversion Hs|].
    pose proof (split_not_nil s) as Hne.
    destruct (split s) as [|f fs] eqn:Hsp; [congruence|].
    inversion Hs; subst. simpl. rewrite Hc. simpl. eauto.
Qed.

(** *** Reading and printing decimal numbers *)

Lemma isDigit_not_comma (c : ascii) : isDigit c = true -> isComma c = false.
Proof.
  destruct c as [[] [] [] [] [] [] [] []]; vm_compute; congruence.
Qed.

Lemma allDigits_noComma (s : string) : allDigits s = true -> noComma s = true.
Proof.
  induction s as [|c s IH]; simpl; [reflexivity|].
  intros [Hc Hs]%andb_true_iff.
  now rewrite (isDigit_not_comma _ Hc), IH.
Qed.

Lemma readDigits_allDigits (s : string) (acc : Z) :
  allDigits s = true ->
  readDigits (Some acc) s
  = Some (fold_left (fun a c => 10 * a + digitValue c) (list_ascii_of_string s) acc).
Proof.
  revert acc. induction s as [|c s IH]; simpl; intros acc; [reflexivity|].
  intros [Hc Hs]%andb_true_iff. rewrite Hc. now apply IH.
Qed.

Lemma readDigits_decimalValue (s : string) :
  allDigits s = true -> truthy s = true ->
  readDigits None s = Some (decimalValue s).
Proof.
  destruct s as [|c s]; [discriminate|]. simpl.
  intros [Hc Hs]%andb_true_iff _. rewrite Hc.
  unfold decimalValue. simpl. now apply readDigits_allDigits.
Qed.

Lemma readInteger_decimalValue (s : string) :
  allDigits s = true -> truthy s = true ->
  readInteger s = Some (decimalValue s).
Proof.
  intros Hs Ht. rewrite <- (readDigits_decimalValue s Hs Ht).
  destruct s as [|c [|d s]]; [reflexivity| |].
  { destruct c as [[] [] [] [] [] [] [] []]; reflexivity. }
  simpl in Hs. apply andb_true_iff in Hs as [_ [Hd _]%andb_true_iff].
  destruct d as [[] [] [] [] [] [] [] []]; try discriminate Hd;
    destruct c as [[] [] [] [] [] [] [] []]; reflexivity.
Qed.

Lemma parseInt_decimalValue (s : string) :
  allDigits s = true -> truthy s = true ->
  parseInt s = Some (decimalValue s).
Proof.
  intros Hs Ht. rewrite <- (readInteger_decimalValue s Hs Ht).
  destruct s as [|c s]; [discriminate|].
  simpl in Hs. apply andb_true_iff in Hs as [Hc _].
  destruct c as [[] [] [] [] [] [] [] []]; try discriminate Hc; reflexivity.
Qed.

Lemma noComma_string_of_uint (d : Decimal.uint) :
  noComma (NilEmpty.string_of_uint d) = true.
Proof. induction d; simpl; auto. Qed.

Lemma noComma_numberToString (n : option Z) :
  noComma (numberToString n) = true.
Proof.
  destruct n as [z|]; [|reflexivity]. unfold numberToString.
  destruct (Z.to_int z) as [d|d]; simpl;
    destruct d; simpl; auto using noComma_string_of_uint.
Qed.

Lemma truthy_numberToString (n : option Z) :
  truthy (numberToString n) = true.
Proof.
  destruct n as [z|]; [|reflexivity]. unfold numberToString.
  destruct (Z.to_int z) as [d|d]; simpl; [|reflexivity].
  destruct d; reflexivity.
Qed.

Lemma decimal_of_uint_acc (d : Decimal.uint) (acc : positive) :
  fold_left (fun a c => 10 * a + digitValue c)
            (list_ascii_of_string (NilEmpty.string_of_uint d)) (Z.pos acc)
  = Z.pos (Pos.of_uint_acc d acc).
Proof.
  revert acc.
  induction d; intros acc;
    cbn [NilEmpty.string_of_uint list_ascii_of_string fold_left Pos.of_uint_acc];
    [reflexivity|..];
    rewrite <- IHd; f_equal;
    match goal with
    | |- context [digitValue ?c] =>
        let v := eval vm_compute in (digitValue c) in
        change (digitValue c) with v
    end; lia.
Qed.

Lemma decimal_of_uint (d : Decimal.uint) :
  decimalValue (NilEmpty.string_of_uint d) = Z.of_N (Pos.of_uint d).
Proof.
  unfold decimalValue.
  induction d; simpl; [reflexivity | exact IHd |..];
    apply (decimal_of_uint_acc d).
Qed.

(** Printing a natural number and reading the digits back. *)
Lemma decimalValue_numberToString (z : Z) :
  0 <= z -> decimalValue (numberToString (Some z)) = z.
Proof.
  intros Hz. unfold numberToString. destruct z as [|p|p]; [reflexivity| |lia].
  simpl. pose proof (DecimalPos.Unsigned.of_to p) as Hp.
  assert (Hnil : Pos.to_uint p <> Decimal.Nil).
  { intros Hn. rewrite Hn in Hp. discriminate. }
  unfold NilZero.string_of_uint.
  destruct (Pos.to_uint p) eqn:Hd; [congruence|..];
    rewrite decimal_of_uint, Hp; reflexivity.
Qed.

Lemma allDigits_string_of_uint (d : Decimal.uint) :
  allDigits (NilEmpty.string_of_uint d) = true.
Proof. induction d; simpl; auto. Qed.

Lemma allDigits_numberToString (z : Z) :
  0 <= z -> allDigits (numberToString (Some z)) = true.
Proof.
  intros Hz. unfold numberToString. destruct z as [|p|p]; [reflexivity| |lia].
  simpl. unfold NilZero.string_of_uint.
  destruct (Pos.to_uint p) eqn:Hd; [reflexivity|..];
    rewrite <- Hd; apply allDigits_string_of_uint.
Qed.

Lemma digitValue_nonneg (c : ascii) : isDigit c = true -> 0 <= digitValue c.
Proof.
  unfold isDigit, digitValue. intros [H _]%andb_true_iff.
  apply Nat.leb_le in H. lia.
Qed.

Lemma decimal_fold_nonneg (s : string) (acc : Z) :
  allDigits s = true -> 0 <= acc ->
  0 <= fold_left (fun a c => 10 * a + digitValue c) (list_ascii_of_string s) acc.
Proof.
  revert acc. induction s as [|c s IH]; simpl; intros acc; [auto|].
  intros [Hc Hs]%andb_true_iff Hacc. apply IH; [exact Hs|].
  pose proof (digitValue_nonneg c Hc). lia.
Qed.

Lemma decimalValue_nonneg (s : string) : allDigits s = true -> 0 <= decimalValue s.
Proof. intros Hs. apply decimal_fold_nonneg; [exact Hs | lia]. Qed.

End JSFacts.

Module SortKeyFacts.
Import JS SortKey JSFacts.

Lemma padBlockHeight_fields (height rest : string) :
  noComma height = true ->
  padBlockHeight (Some (height +:+ String comma rest))
  = Some (padStart 12 "0" height +:+ String comma rest).
Proof.
  intros Hh. unfold padBlockHeight.
  rewrite truthy_app by reflexivity. simpl negb. cbv iota.
  rewrite (split_field _ _ Hh), join_cons by apply split_not_nil.
  now rewrite join_split.
Qed.

Lemma padBlockHeight_height (height : string) :
  noComma height = true -> truthy height = true ->
  padBlockHeight (Some height) = Some (padStart 12 "0" height).
Proof.
  intros Hh Ht. unfold padBlockHeight. rewrite Ht. simpl negb. cbv iota.
  now rewrite (split_single _ Hh).
Qed.

Lemma padBlockHeight_idempotent (sortKey : option string) :
  padBlockHeight (padBlockHeight sortKey) = padBlockHeight sortKey.
Proof.
  destruct sortKey as [s|]; [|reflexivity].
  destruct (truthy s) eqn:Ht.
  2:{ unfold padBlockHeight. now rewrite Ht; simpl; rewrite Ht. }
  destruct (split s) as [|height rest] eqn:Hs; [now apply split_not_nil in Hs|].
  assert (Hpad : padBlockHeight (Some s)
                 = Some (join (padStart 12 "0" height :: rest))).
  { unfold padBlockHeight. now rewrite Ht, Hs. }
  rewrite Hpad.
  pose proof (split_head_noComma _ _ _ Hs) as Hh.
  pose proof (noComma_padStart 12 _ Hh) as Hp.
  destruct rest as [|field fields].
  - change (join [padStart 12 "0" height]) with (padStart 12 "0" height).
    rewrite (padBlockHeight_height _ Hp (truthy_padStart _)).
    now rewrite padStart_idempotent.
  - rewrite join_cons by discriminate.
    rewrite (padBlockHeight_fields _ _ Hp).
    now rewrite padStart_idempotent.
Qed.

(** C9. [padBlockHeight] is idempotent on every input; on a sort key it
    pads the block-height field (the text before the first comma) to 12
    characters with zeros and keeps the text after that comma as it is;
    a shorter field grows to exactly 12 characters and a field of 12 or
    more characters is unchanged. *)
Theorem padBlockHeight_canonical :
  (forall sortKey : option string,
      padBlockHeight (padBlockHeight sortKey) = padBlockHeight sortKey)
  /\ (forall height rest : string,
        noComma height = true ->
        padBlockHeight (Some (height +:+ String comma rest))
        = Some (padStart 12 "0" height +:+ String comma rest))
  /\ (forall height : string,
        noComma height = true -> truthy height = true ->
        padBlockHeight (Some height) = Some (padStart 12 "0" height))
  /\ (forall height : string,
        padStart 12 "0" height
        = replicate (12 - String.length height) "0" +:+ height
        /\ String.length (padStart 12 "0" height)
           = Nat.max 12 (String.length height)).
Proof.
  split; [exact padBlockHeight_idempotent|].
  split; [exact padBlockHeight_fields|].
  split; [exact padBlockHeight_height|].
  intros height. split; [reflexivity | apply length_padStart].
Qed.

Lemma padBlockHeight_canonical_witness :
  noComma "1257294" = true
  /\ padBlockHeight
       (Some "1257294,1694181441598,fb1ebd7d621d1398acc03e108b7a593c")
     = Some "000001257294,1694181441598,fb1ebd7d621d1398acc03e108b7a593c"%string.
Proof.
  split; [reflexivity|].
  exact (proj1 (proj2 padBlockHeight_canonical)
           "1257294" "1694181441598,fb1ebd7d621d1398acc03e108b7a593c" eq_refl).
Defined.

Lemma incrementBound_height (height : string) :
  allDigits height = true -> truthy height = true ->
  incrementBound (Some height)
  = Some (padStart 12 "0" (numberToString (Some (decimalValue height + 1)))).
Proof.
  intros Hd Ht. unfold incrementBound, incrementBlockHeight.
  rewrite Ht. simpl negb. cbv iota zeta.
  rewrite (split_single _ (allDigits_noComma _ Hd)).
  change (1 <? length [height])%nat with false. cbv iota.
  rewrite Ht. simpl negb. cbv iota.
  rewrite (parseInt_decimalValue _ Hd Ht).
  change (succ (Some (decimalValue height)))
    with (Some (Z.succ (decimalValue height))).
  rewrite padBlockHeight_height
    by auto using noComma_numberToString, truthy_numberToString.
  reflexivity.
Qed.

Lemma incrementBound_fields (height rest : string) :
  noComma height = true ->
  incrementBound (Some (height +:+ String comma rest))
  = Some (padStart 12 "0" height +:+ String comma rest).
Proof.
  intros Hh. unfold incrementBound, incrementBlockHeight.
  rewrite truthy_app by reflexivity. simpl negb. cbv iota zeta.
  rewrite (split_field _ _ Hh).
  pose proof (split_not_nil rest) as Hne.
  destruct (split rest) as [|f fs] eqn:Hr; [congruence|].
  change (1 <? length (height :: f :: fs))%nat with true. cbv iota.
  rewrite <- Hr, join_cons, join_split by apply split_not_nil.
  now apply padBlockHeight_fields.
Qed.

(** C8. The [to] transform of [mapBounds]: a sort key that is a block
    height alone (decimal digits, up to the largest safe integer) becomes
    the decimal writing of the height plus one, padded to 12 characters;
    a sort key with further comma-separated fields keeps those fields and
    only has its first field padded. *)
Theorem incrementBound_to_bound :
  (forall height : string,
      allDigits height = true -> truthy height = true ->
      decimalValue height < 2 ^ 53 ->
      let next := numberToString (Some (decimalValue height + 1)) in
      incrementBound (Some height) = Some (padStart 12 "0" next)
      /\ allDigits next = true
      /\ decimalValue next = decimalValue height + 1)
  /\ (forall height rest : string,
        noComma height = true ->
        incrementBound (Some (height +:+ String comma rest))
        = Some (padStart 12 "0" height +:+ String comma rest))
  /\ incrementBound (Some "1257294"%string) = Some "000001257295"%string.
Proof.
  split; [|split; [exact incrementBound_fields | reflexivity]].
  intros height Hd Ht _ next.
  pose proof (decimalValue_nonneg _ Hd) as Hv.
  split; [now apply incrementBound_height|].
  split; [apply allDigits_numberToString | apply decimalValue_numberToString]; lia.
Qed.

Lemma incrementBound_to_bound_witness :
  (allDigits "000001257294" = true /\ truthy "000001257294" = true
   /\ decimalValue "000001257294" < 2 ^ 53)
  /\ incrementBound (Some "000001257294"%string) = Some "000001257295"%string.
Proof.
  split; [repeat split; reflexivity|].
  exact (proj1 (proj1 incrementBound_to_bound "000001257294"
                  eq_refl eq_refl eq_refl)).
Defined.

End SortKeyFacts.

(** ** Loading interactions from the sequencer *)

Module SuClientFacts.
Import JS Async Model SortKey SuClient.

Section WithEnv.

Variable JSON : Type.
Variable JSON_parse : string -> option JSON.
Variable interactionSchema : Loaded JSON -> bool.
Variable SEQUENCER_URL : string.

Abbreviation accepted := (accepted JSON JSON_parse interactionSchema).
Abbreviation toLoaded := (toLoaded JSON JSON_parse).
Abbreviation transduceInteractions := (transduceInteractions JSON JSON_parse).
Abbreviation loadInteractions :=
  (loadInteractions JSON JSON_parse interactionSchema SEQUENCER_URL).

Lemma unshift_fold (interactions : list Interaction) (acc : list (Loaded JSON)) :
  Forall accepted interactions ->
  exists loaded,
    fold_left (unshiftStep JSON JSON_parse) interactions (Some acc)
    = Some (loaded ++ acc)
    /\ loadedSortKey <$> loaded = reverse (sortKey <$> interactions)
    /\ forallb interactionSchema loaded = true.
Proof.
  revert acc. induction interactions as [|i interactions IH]; intros acc Hall.
  - exists []. repeat split.
  - inversion Hall as [|? ? [x [Hx Hs]] Hrest]; subst.
    destruct (IH (x :: acc) Hrest) as [loaded [Hfold [Hkeys Hschema]]].
    exists (loaded ++ [x]). split; [|split].
    + simpl. rewrite Hx. simpl. rewrite Hfold. now rewrite <- app_assoc.
    + rewrite fmap_app, Hkeys. simpl. rewrite reverse_cons.
      unfold toLoaded in Hx.
      destruct (inputOf (tags i)) as [input|]; [|discriminate]. simpl in Hx.
      destruct (JSON_parse input) as [parsed|]; [|discriminate].
      simpl in Hx. now inversion Hx.
    + rewrite forallb_app, Hschema. simpl. now rewrite Hs.
Qed.

Lemma ascending_reverse (keys : list string) :
  descending keys -> ascending (reverse keys).
Proof. intros Hd. exact (Sorted_reverse _ _ Hd). Qed.

(** C3, as the code has it.  [loadInteractions] sends one request, built
    from the mapped bounds, and resolves to the interactions of the page
    it is answered with, in reverse order of the page: in non-decreasing
    order of sort key when the page is in non-increasing order.  The pages
    the sequencer still holds are left unrequested. *)
Theorem loadInteractions_reverses_page
    (ctx : Bounds) (su : Sequencer) (interactions : list Interaction) :
  List.hd (Some []) (pages su) = Some interactions ->
  Forall accepted interactions ->
  exists loaded,
    loadInteractions ctx su
    = ({| requests := requests su ++ [interactionsUrl SEQUENCER_URL (mapBounds ctx)];
          pages := List.tl (pages su) |},
       Resolved loaded)
    /\ loadedSortKey <$> loaded = reverse (sortKey <$> interactions)
    /\ (descending (sortKey <$> interactions) -> ascending (loadedSortKey <$> loaded)).
Proof.
  intros Hpage Hall.
  destruct (unshift_fold interactions [] Hall) as [loaded [Hfold [Hkeys Hschema]]].
  rewrite app_nil_r in Hfold.
  exists loaded. split; [|split].
  - unfold loadInteractions, fetch. rewrite Hpage.
    unfold transduceInteractions. now rewrite Hfold, Hschema.
  - exact Hkeys.
  - intros Hd. rewrite Hkeys. now apply ascending_reverse.
Qed.

End WithEnv.

Lemma accepted_interactionAt (key : string) :
  accepted string Some (fun _ => true) (interactionAt key).
Proof. exists (mkLoaded key key). split; reflexivity. Qed.

Lemma loadInteractions_reverses_page_witness :
  (List.hd (Some []) (pages (mkSequencer [] [Some [interactionAt keyB; interactionAt keyA]; Some []]))
   = Some [interactionAt keyB; interactionAt keyA]
   /\ Forall (accepted string Some (fun _ => true)) [interactionAt keyB; interactionAt keyA])
  /\ exists loaded,
      SuClient.loadInteractions string Some (fun _ => true) "https://su.example" wholeRange
        (mkSequencer [] [Some [interactionAt keyB; interactionAt keyA]; Some []])
      = (mkSequencer [requestUrl] [Some []], Resolved loaded)
      /\ loadedSortKey <$> loaded = [keyA; keyB].
Proof.
  assert (Hall : Forall (accepted string Some (fun _ => true))
                   [interactionAt keyB; interactionAt keyA]).
  { repeat constructor; apply accepted_interactionAt. }
  split; [split; [reflexivity | exact Hall]|].
  destruct (loadInteractions_reverses_page string Some (fun _ => true)
              "https://su.example" wholeRange
              (mkSequencer [] [Some [interactionAt keyB; interactionAt keyA]; Some []])
              [interactionAt keyB; interactionAt keyA] eq_refl Hall)
    as [loaded [Hload [Hkeys _]]].
  exists loaded. split; [exact Hload | exact Hkeys].
Defined.

(** C3, as stated, fails: with the interactions spread over two pages,
    [[D, C]] then [[B, A]], a single request is sent, the call resolves to
    [C, D], and the second page, with [A] and [B], is still with the
    sequencer. *)
Lemma loadInteractions_stops_after_first_page :
  SuClient.loadInteractions string Some (fun _ => true) "https://su.example" wholeRange
    (mkSequencer []
       [Some [interactionAt keyD; interactionAt keyC];
        Some [interactionAt keyB; interactionAt keyA];
        Some []])
  = (mkSequencer [requestUrl] [Some [interactionAt keyB; interactionAt keyA]; Some []],
     Resolved [mkLoaded keyC keyC; mkLoaded keyD keyD])
  /\ (keyA ∉ [keyC; keyD]) /\ (keyB ∉ [keyC; keyD]).
Proof.
  split; [vm_compute; reflexivity|].
  split; intros H; repeat (apply elem_of_cons in H as [H|H]; [discriminate H|]);
    now apply elem_of_nil in H.
Qed.

End SuClientFacts.

(** ** Positions, the memory cache and Checkpoints *)

Module AoProcessFacts.
Import JS Async Model AoProcess.

Section Ordering.

Variable StringToNumber : string -> option Z.

Lemma strictEquals_refl (v : value) : strictEquals v v = true.
Proof.
  destruct v; simpl; [reflexivity | apply Z.eqb_refl | apply String.eqb_refl].
Qed.

Lemma string_compare_refl (s : string) : String.compare s s = Eq.
Proof.
  pose proof (String.compare_antisym s s) as H.
  destruct (String.compare s s); simpl in H; congruence.
Qed.

Lemma stringGreaterThan_spec (a b : string) :
  stringGreaterThan a b = true <-> String.compare b a = Lt.
Proof.
  unfold stringGreaterThan, String.ltb.
  destruct (String.compare b a); split; congruence.
Qed.

Lemma isLaterThan_numbers (t1 t2 : Z) (o1 o2 : value) (c1 c2 : option string) :
  isLaterThan StringToNumber
    (Position.mk (VNumber t1) o1 c1) (Position.mk (VNumber t2) o2 c2) = true
  <-> t1 < t2 \/ (t1 = t2 /\ String.compare (orEmpty c1) (orEmpty c2) = Lt).
Proof.
  unfold isLaterThan. simpl.
  destruct (Z.eqb_spec t2 t1) as [->|Hne].
  - rewrite stringGreaterThan_spec. intuition lia.
  - rewrite Z.ltb_lt. intuition lia.
Qed.

Lemma isLaterThan_strings (t1 t2 : string) (o1 o2 : value) (c1 c2 : option string) :
  isLaterThan StringToNumber
    (Position.mk (VString t1) o1 c1) (Position.mk (VString t2) o2 c2) = true
  <-> String.compare t1 t2 = Lt
      \/ (t1 = t2 /\ String.compare (orEmpty c1) (orEmpty c2) = Lt).
Proof.
  unfold isLaterThan. simpl.
  destruct (String.eqb_spec t2 t1) as [->|Hne].
  - rewrite stringGreaterThan_spec. split; [auto|].
    intros [Hlt|[_ Hlt]]; [|exact Hlt].
    rewrite string_compare_refl in Hlt. discriminate.
  - rewrite stringGreaterThan_spec. split; [auto|].
    intros [Hlt|[Heq _]]; [exact Hlt | congruence].
Qed.

Lemma isLaterThan_empty_cron (t o1 o2 : value) (a : ascii) (c : string) :
  isLaterThan StringToNumber
    (Position.mk t o1 None) (Position.mk t o2 (Some (String a c))) = true
  /\ isLaterThan StringToNumber
       (Position.mk t o1 (Some EmptyString)) (Position.mk t o2 (Some (String a c))) = true.
Proof.
  unfold isLaterThan. simpl. rewrite strictEquals_refl. split; reflexivity.
Qed.

(** C7. [isLaterThan(a, b)] holds exactly when [b] comes after [a]:
    by timestamp first and, on equal timestamps, by cron interval as
    a string, an absent or empty cron coming before every non-empty
    one.  The two scenarios of the specification follow. *)
Theorem isLaterThan_order :
  (forall (t1 t2 : Z) (o1 o2 : value) (c1 c2 : option string),
      isLaterThan StringToNumber
        (Position.mk (VNumber t1) o1 c1) (Position.mk (VNumber t2) o2 c2) = true
      <-> t1 < t2 \/ (t1 = t2 /\ String.compare (orEmpty c1) (orEmpty c2) = Lt))
  /\ (forall (t1 t2 : string) (o1 o2 : value) (c1 c2 : option string),
        isLaterThan StringToNumber
          (Position.mk (VString t1) o1 c1) (Position.mk (VString t2) o2 c2) = true
        <-> String.compare t1 t2 = Lt
            \/ (t1 = t2 /\ String.compare (orEmpty c1) (orEmpty c2) = Lt))
  /\ (forall (t o1 o2 : value) (a : ascii) (c : string),
        isLaterThan StringToNumber
          (Position.mk t o1 None) (Position.mk t o2 (Some (String a c))) = true
        /\ isLaterThan StringToNumber
             (Position.mk t o1 (Some EmptyString))
             (Position.mk t o2 (Some (String a c))) = true)
  /\ isLaterThan StringToNumber
       (Position.mk (VNumber 10) VUndefined (Some EmptyString))
       (Position.mk (VNumber 10) VUndefined (Some "1m"%string)) = true
  /\ isLaterThan StringToNumber
       (Position.mk (VNumber 10) VUndefined None)
       (Position.mk (VNumber 11) VUndefined None) = true.
Proof.
  split; [exact isLaterThan_numbers|].
  split; [exact isLaterThan_strings|].
  split; [exact isLaterThan_empty_cron|].
  split; reflexivity.
Qed.

End Ordering.

Section Cache.

Variable StringToNumber : string -> option Z.
Variable gzip : bytes -> bytes.

(** Read on a cache value, [timestamp] is [undefined]: no incoming
    position with a timestamp is found later than it, and none is found
    equal to it. *)
Lemma isLaterThan_entry (entry : Entry.t) (incoming : Position.t) :
  Position.timestamp incoming <> VUndefined ->
  isLaterThan StringToNumber entry incoming = false.
Proof.
  intros Hts. unfold isLaterThan. simpl.
  destruct (Position.timestamp incoming) as [|n|t]; [congruence|reflexivity|].
  simpl. now destruct (StringToNumber t).
Qed.

Lemma saveLatestProcessMemory_overwrites (cache : gmap string Entry.t) (args : Latest.t) :
  Latest.timestamp args <> VUndefined ->
  Entry.evaluation <$> (saveLatestProcessMemory StringToNumber gzip cache args
                        !! Latest.processId args)
  = Some {| Evaluation.processId := Latest.processId args;
            Evaluation.moduleId := Latest.moduleId args;
            Evaluation.timestamp := Latest.timestamp args;
            Evaluation.epoch := Latest.epoch args;
            Evaluation.nonce := Latest.nonce args;
            Evaluation.blockHeight := Latest.blockHeight args;
            Evaluation.ordinate := Latest.ordinate args;
            Evaluation.encoding := Some "gzip"%string;
            Evaluation.cron := Latest.cron args |}.
Proof.
  intros Hts. unfold saveLatestProcessMemory.
  destruct (cache !! Latest.processId args) as [entry|] eqn:Hc.
  - rewrite isLaterThan_entry by exact Hts. now rewrite lookup_insert_eq.
  - now rewrite lookup_insert_eq.
Qed.

(** C1, on the code.  The cache holds for process ["process-1"] an
    evaluation at timestamp 20; [saveLatestProcessMemory] is called for the
    same process with an evaluation at timestamp 10.  The cached evaluation
    is later than the incoming one, and yet the entry is overwritten: the
    cache then holds the evaluation at timestamp 10 with its memory. *)
Theorem saveLatestProcessMemory_regresses (Memory20 Memory10 : bytes) :
  let cachedEvaluation :=
    Evaluation.mk "process-1" (VString "module-1") (VNumber 20) (VNumber 0)
                  (VNumber 2) (VNumber 100) (VString "2") (Some "gzip"%string) None in
  let cache : gmap string Entry.t :=
    {[ "process-1"%string := Entry.mk (gzip Memory20) cachedEvaluation ]} in
  let args :=
    Latest.mk "process-1" (VString "module-1") (VString "message-1") (VNumber 10)
              (VNumber 0) (VNumber 1) (VString "1") None (VNumber 99) Memory10 in
  let incoming :=
    Position.mk (Latest.timestamp args) (Latest.ordinate args) (Latest.cron args) in
  isLaterThan StringToNumber incoming cachedEvaluation = true
  /\ saveLatestProcessMemory StringToNumber gzip cache args !! "process-1"%string
     = Some (Entry.mk (gzip Memory10)
               (Evaluation.mk "process-1" (VString "module-1") (VNumber 10) (VNumber 0)
                  (VNumber 1) (VNumber 99) (VString "1") (Some "gzip"%string) None)).
Proof.
  intros cachedEvaluation cache args incoming. split; [reflexivity|].
  unfold saveLatestProcessMemory. subst cache. simpl Latest.processId.
  rewrite lookup_singleton_eq.
  rewrite isLaterThan_entry by (simpl; discriminate).
  now rewrite lookup_insert_eq.
Qed.

End Cache.

Section Discovery.

Variable StringToNumber : string -> option Z.
Variable gzip : bytes -> bytes.
Variable gunzip : bytes -> option bytes.
Variable COLLATION_SEQUENCE_MIN_CHAR : string.

(** The first Checkpoint of the page is taken without being compared
    with the requested position. *)
Lemma determineLatestCheckpointBefore_single (requested : Position.t) (edge : Edge) :
  determineLatestCheckpointBefore StringToNumber requested [edge]
  = Some (toCheckpoint edge).
Proof. reflexivity. Qed.

(** A non-empty page always yields a Checkpoint. *)
Lemma determineLatestCheckpointBefore_some (requested : Position.t) (edges : list Edge) :
  edges <> [] ->
  is_Some (determineLatestCheckpointBefore StringToNumber requested edges).
Proof.
  destruct edges as [|edge edges]; [congruence|]. intros _.
  unfold determineLatestCheckpointBefore. simpl.
  generalize (toCheckpoint edge). induction edges as [|e edges IH]; intros latest.
  - simpl. eauto.
  - simpl.
    destruct (isLaterThan StringToNumber requested (toCheckpoint e)); [apply IH|].
    destruct (isEarlierThan StringToNumber latest (toCheckpoint e)); apply IH.
Qed.

(** What does degrade to a cold start: with nothing cached, a gateway
    that fails or has no Checkpoint for the process, and a Checkpoint whose
    data does not download. *)
Lemma findProcessMemoryBefore_cold_start
    (queryGateway : Query -> option (list Edge))
    (loadTransactionData : string -> option bytes)
    (processId : string) (requested : Position.t) :
  queryGateway (GetAoProcessCheckpoints (VString processId) 50) = None
  \/ queryGateway (GetAoProcessCheckpoints (VString processId) 50) = Some []
  \/ (exists edge,
        queryGateway (GetAoProcessCheckpoints (VString processId) 50) = Some [edge]
        /\ supportedEncoding (Checkpoint.encoding (toCheckpoint edge)) = true
        /\ loadTransactionData (nodeId edge) = None) ->
  findProcessMemoryBefore StringToNumber gunzip COLLATION_SEQUENCE_MIN_CHAR
    queryGateway loadTransactionData ∅ processId requested
  = Resolved {| Found.Memory := None;
                Found.timestamp := VUndefined;
                Found.blockHeight := VUndefined;
                Found.cron := None;
                Found.ordinate := VString COLLATION_SEQUENCE_MIN_CHAR |}.
Proof.
  unfold findProcessMemoryBefore, maybeCached. rewrite lookup_empty.
  unfold maybeCheckpointFromArweave. cbn [Ctx.processId].
  intros [H|[H|[edge [H [Henc Hload]]]]]; rewrite H; try reflexivity.
  rewrite determineLatestCheckpointBefore_single, Henc. simpl negb. cbv iota.
  cbn [Checkpoint.id toCheckpoint]. now rewrite Hload.
Qed.

(** C5, on the code.  The gateway returns one Checkpoint, at timestamp
    ["20"], for a request at timestamp ["10"].  The Checkpoint is later than
    the requested position, yet [determineLatestCheckpointBefore] selects
    it and [findProcessMemoryBefore] resolves to its memory instead of a
    cold start. *)
Theorem findProcessMemoryBefore_takes_later_checkpoint (snapshot : bytes) :
  let edge :=
    mkEdge "checkpoint-20" "owner-1"
           [mkTag "Process" "process-1"; mkTag "Nonce" "2";
            mkTag "Timestamp" "20"; mkTag "Block-Height" "100"] in
  let requested := Position.mk (VString "10") (VString "1") None in
  let queryGateway := fun _ : Query => Some [edge] in
  let loadTransactionData := fun _ : string => Some snapshot in
  isLaterThan StringToNumber requested (toCheckpoint edge) = true
  /\ determineLatestCheckpointBefore StringToNumber requested [edge]
     = Some (toCheckpoint edge)
  /\ findProcessMemoryBefore StringToNumber gunzip COLLATION_SEQUENCE_MIN_CHAR
       queryGateway loadTransactionData ∅ "process-1" requested
     = Resolved {| Found.Memory := Some snapshot;
                   Found.timestamp := VString "20";
                   Found.blockHeight := VString "100";
                   Found.cron := None;
                   Found.ordinate := VString "2" |}.
Proof.
  intros edge requested queryGateway loadTransactionData.
  split; [reflexivity|]. split; [reflexivity|].
  unfold findProcessMemoryBefore, maybeCached. rewrite lookup_empty.
  reflexivity.
Qed.

End Discovery.

Section Publication.

Variable address : option string.
Variable queryGateway : Query -> option (list Edge).
Variable hashWasmMemory : bytes -> option string -> option string.
Variable buildAndSignDataItem : DataItem -> option Signed.
Variable uploadDataItem : bytes -> option string.

(** C6. [saveCheckpoint] first asks for the address, then queries the
    gateway for a Checkpoint of this owner with the process id, nonce and
    timestamp of the evaluation, and with its cron interval exactly when
    there is one; when the gateway answers with such a Checkpoint the call
    resolves having made these two calls only: nothing is hashed, signed
    or uploaded. *)
Theorem saveCheckpoint_existing_noop
    (args : Save.t) (owner : string) (checkpoint : Edge) (others : list Edge) :
  let query :=
    GetAoProcessCheckpoint
      (match Save.cron args with
       | Some (String _ _) => true
       | _ => false
       end)
      owner (Save.processId args)
      (templateString (Save.nonce args)) (templateString (Save.timestamp args))
      (Save.cron args) in
  address = Some owner ->
  queryGateway query = Some (checkpoint :: others) ->
  saveCheckpoint address queryGateway hashWasmMemory buildAndSignDataItem
    uploadDataItem args
  = ([CallAddress; CallQueryGateway query], Resolved tt).
Proof.
  intros query Haddr Hquery. unfold saveCheckpoint. rewrite Haddr.
  assert (Hq : existingCheckpointQuery owner args = query).
  { unfold existingCheckpointQuery, query.
    destruct (Save.cron args) as [[|c cr]|]; reflexivity. }
  rewrite Hq, Hquery. reflexivity.
Qed.

End Publication.

Lemma saveCheckpoint_existing_noop_witness :
  (Some "owner-1"%string = Some "owner-1"%string
   /\ (fun _ : Query => Some [publishedCheckpoint])
        (GetAoProcessCheckpoint true "owner-1" "process-1" "7" "1700000000000"
           (Some "10-minutes"%string)) = Some [publishedCheckpoint])
  /\ saveCheckpoint (Some "owner-1"%string) (fun _ => Some [publishedCheckpoint])
       (fun _ _ => Some "sha"%string) (fun item => Some (mkSigned "id" (data item)))
       (fun _ => Some "id"%string) cronEvaluation
     = ([CallAddress;
         CallQueryGateway
           (GetAoProcessCheckpoint true "owner-1" "process-1" "7" "1700000000000"
              (Some "10-minutes"%string))],
        Resolved tt).
Proof.
  split; [split; reflexivity|].
  exact (saveCheckpoint_existing_noop (Some "owner-1"%string)
           (fun _ => Some [publishedCheckpoint])
           (fun _ _ => Some "sha"%string) (fun item => Some (mkSigned "id" (data item)))
           (fun _ => Some "id"%string) cronEvaluation "owner-1" publishedCheckpoint []
           eq_refl eq_refl).
Defined.

End AoProcessFacts.

(** ** The deep hash of forwarded messages *)

Module HydrateFacts.
Import JS Async Model Hydrate.

Section WithEnv.

Variable calcDataItemDeepHash :
  string -> list Tag -> option string -> option string -> option string.

Abbreviation deepHashOf := (deepHashOf calcDataItemDeepHash).
Abbreviation maybeMessageId := (maybeMessageId calcDataItemDeepHash).
Abbreviation hydrated := (hydrated calcDataItemDeepHash).
Abbreviation hashable := (hashable calcDataItemDeepHash).

Lemma maybeMessageId_all (messages : list Cur) :
  hashable messages ->
  exists out, maybeMessageId messages = (out, None) /\ Forall2 hydrated messages out.
Proof.
  induction messages as [|cur messages IH]; intros Hall.
  - exists []. split; [reflexivity | constructor].
  - inversion Hall as [|? ? Hcur Hrest]; subst.
    destruct (IH Hrest) as [out [Hout Hrel]].
    cbn [Hydrate.maybeMessageId]. rewrite Hout.
    destruct (forwardedBy cur) eqn:Hf; simpl.
    + destruct (Hcur eq_refl) as [hash Hhash]. rewrite Hhash.
      exists (setDeepHash cur hash :: out). split; [reflexivity|].
      constructor; [|exact Hrel]. unfold Hydrate.hydrated. rewrite Hf. eauto.
    + exists (cur :: out). split; [reflexivity|].
      constructor; [|exact Hrel]. unfold Hydrate.hydrated. now rewrite Hf.
Qed.

Lemma maybeMessageId_throws (before after : list Cur) (cur : Cur) :
  hashable before ->
  forwardedBy cur = true -> deepHashOf cur = None ->
  exists out,
    maybeMessageId (before ++ cur :: after) = (out, Some "calcDataItemDeepHash"%string)
    /\ Forall2 hydrated before out.
Proof.
  intros Hall Hf Hnone. induction before as [|c before IH].
  - exists []. split; [|constructor].
    cbn [app Hydrate.maybeMessageId]. rewrite Hf. simpl. now rewrite Hnone.
  - inversion Hall as [|? ? Hc Hrest]; subst.
    destruct (IH Hrest) as [out [Hout Hrel]].
    cbn [app Hydrate.maybeMessageId]. rewrite Hout.
    destruct (forwardedBy c) eqn:Hfc; simpl.
    + destruct (Hc eq_refl) as [hash Hhash]. rewrite Hhash.
      exists (setDeepHash c hash :: out). split; [reflexivity|].
      constructor; [|exact Hrel]. unfold Hydrate.hydrated. rewrite Hfc. eauto.
    + exists (c :: out). split; [reflexivity|].
      constructor; [|exact Hrel]. unfold Hydrate.hydrated. now rewrite Hfc.
Qed.

(** C4, as the code has it.  [maybeMessageId] attaches the deep hash to
    exactly the messages whose [Forwarded-By] is set and yields every
    other message as it is, in the order of the input; when the deep hash
    of a forwarded message cannot be computed the generator throws at
    that message, having yielded the messages before it and nothing
    after. *)
Theorem maybeMessageId_forwarded_by :
  (forall messages : list Cur,
      hashable messages ->
      exists out,
        maybeMessageId messages = (out, None) /\ Forall2 hydrated messages out)
  /\ (forall (before after : list Cur) (cur : Cur),
        hashable before ->
        forwardedBy cur = true -> deepHashOf cur = None ->
        exists out,
          maybeMessageId (before ++ cur :: after)
          = (out, Some "calcDataItemDeepHash"%string)
          /\ Forall2 hydrated before out)
  /\ (forall cur out : Cur,
        hydrated cur out ->
        if forwardedBy cur
        then deepHash out = deepHashOf cur /\ is_Some (deepHash out)
             /\ message out = message cur /\ sortKey out = sortKey cur
        else out = cur).
Proof.
  split; [exact maybeMessageId_all|]. split; [exact maybeMessageId_throws|].
  intros cur out. unfold Hydrate.hydrated.
  destruct (forwardedBy cur); [|auto].
  intros [hash [Hhash ->]]. rewrite Hhash. simpl. eauto.
Qed.

End WithEnv.

Lemma maybeMessageId_forwarded_by_witness :
  hashable (fun _ _ _ _ => Some "hash"%string) [forwardedByOnly; forwardedForOnly]
  /\ exists out,
      Hydrate.maybeMessageId (fun _ _ _ _ => Some "hash"%string)
        [forwardedByOnly; forwardedForOnly] = (out, None)
      /\ Forall2 (Hydrate.hydrated (fun _ _ _ _ => Some "hash"%string))
           [forwardedByOnly; forwardedForOnly] out.
Proof.
  assert (H : hashable (fun _ _ _ _ => Some "hash"%string)
                [forwardedByOnly; forwardedForOnly]).
  { repeat constructor; intros _; eexists; reflexivity. }
  split; [exact H|].
  exact (proj1 (maybeMessageId_forwarded_by (fun _ _ _ _ => Some "hash"%string))
           [forwardedByOnly; forwardedForOnly] H).
Defined.

(** C4, as stated, fails: a message with [Forwarded-For] set and no
    [Forwarded-By] is yielded without a deep hash although its hash can be
    computed, and a message with [Forwarded-By] set and no [Forwarded-For]
    gets one. *)
Lemma maybeMessageId_ignores_forwarded_for :
  Forwarded_For (message forwardedForOnly) = Some "process-0"%string
  /\ Hydrate.maybeMessageId (fun _ _ _ _ => Some "hash"%string) [forwardedForOnly]
     = ([forwardedForOnly], None)
  /\ deepHash forwardedForOnly = None
  /\ Forwarded_For (message forwardedByOnly) = None
  /\ Hydrate.maybeMessageId (fun _ _ _ _ => Some "hash"%string) [forwardedByOnly]
     = ([setDeepHash forwardedByOnly "hash"], None).
Proof. repeat split. Qed.

End HydrateFacts.

(** ** Forwarding a message to the sequencer *)

Module MuSequencerFacts.
Import JS Async MuSequencer.

(** C2, on the code.  Whatever the sequencer answers, [writeMessage]
    sends one POST to [{SEQUENCER_URL}/message] with content type
    [application/octet-stream] and then fails with the [TypeError] raised
    on the [undefined] returned by the function that calls [fetch]: it
    resolves with no body and carries no status.  Below, the sequencer
    answers 200 with a JSON body. *)
Theorem writeMessage_drops_response
    (JSON : Type) (fetch : Request -> outcome (Response JSON))
    (fromBase64 : string -> bytes) (SEQUENCER_URL data : string) :
  writeMessage JSON fetch fromBase64 SEQUENCER_URL data
  = ([mkRequest (SEQUENCER_URL +:+ "/message") "POST"
        [("Content-Type", "application/octet-stream"); ("Accept", "application/json")]%string
        (fromBase64 data)],
     Thrown "TypeError: Cannot read properties of undefined (reading 'then')")
  /\ (let answer := mkResponse true 200 "{ id: tx-1 }" (Some "{ id: tx-1 }"%string) in
      readResponse string answer = Resolved "{ id: tx-1 }"%string
      /\ snd (writeMessage string (fun _ => Resolved answer) (fun _ => []) "https://su.example" "AAAA")
         = Thrown "TypeError: Cannot read properties of undefined (reading 'then')").
Proof. split; [reflexivity|]. split; reflexivity. Qed.

End MuSequencerFacts.

(** ** A run of the monitor worker *)

Module MonitorFacts.
Import JS Async Monitor.

Section WithEnv.

Variable CU_URL : string.
Variable fetchJson : string -> Fetched.
Variable random : nat -> string.
Variable now : Z.
Variable saveMsg : Saved -> bool.
Variable findLatestMsgs : string -> option (list Saved).
Variable crankMsgs : list Saved -> bool.
Variable updateMonitor : Monitor -> bool.

Abbreviation scheduledUrl := (scheduledUrl CU_URL).
Abbreviation documents := (documents random now).
Abbreviation completeCalls := (completeCalls CU_URL random now).
Abbreviation processMonitor :=
  (processMonitor CU_URL fetchJson random now saveMsg findLatestMsgs crankMsgs
     updateMonitor).

Lemma processMonitor_nothing (running : list string) (m : Monitor) :
  nothingScheduled (fetchJson (scheduledUrl m)) = true ->
  processMonitor running m
  = mkRun (running ++ [id m]) m [CallFetch (scheduledUrl m)] (Resolved ReturnedEmpty).
Proof.
  intros Hn. unfold Monitor.processMonitor, fetchScheduled. now rewrite Hn.
Qed.

Lemma not_in_saves (docs : list Saved) (m' : Monitor) :
  ~ In (CallUpdateMonitor m') (CallSaveMsg <$> docs).
Proof.
  induction docs as [|d docs IH]; simpl; [tauto|].
  intros [H|H]; [discriminate | tauto].
Qed.

Lemma processMonitor_update (running : list string) (m m' : Monitor) :
  In (CallUpdateMonitor m') (calls (processMonitor running m)) ->
  exists batch lastScheduled dbMsgs,
    fetchJson (scheduledUrl m) = FetchedArray batch
    /\ last batch = Some lastScheduled
    /\ forallb saveMsg (documents ("scheduled-" +:+ random 0) 1 batch) = true
    /\ findLatestMsgs ("scheduled-" +:+ random 0) = Some dbMsgs
    /\ crankMsgs dbMsgs = true
    /\ m' = setLastFromSortKey m (scheduledSortKey lastScheduled)
    /\ calls (processMonitor running m) = completeCalls m m' batch dbMsgs.
Proof.
  unfold Monitor.processMonitor, fetchScheduled.
  destruct (nothingScheduled (fetchJson (scheduledUrl m))) eqn:Hn.
  { simpl. intros [H|[]]. discriminate. }
  destruct (fetchJson (scheduledUrl m)) as [| |batch|len] eqn:Hf;
    try (simpl; intros [H|[]]; discriminate).
  destruct (forallb saveMsg _) eqn:Hsave; simpl negb; cbv iota.
  2:{ simpl. intros [H|H]; [discriminate|]. now apply not_in_saves in H. }
  destruct (findLatestMsgs _) as [dbMsgs|] eqn:Hfind.
  2:{ cbn [calls]. rewrite !in_app_iff. simpl.
      intros [[[H|[]]|H]|[H|[]]]; try discriminate. now apply not_in_saves in H. }
  destruct (crankMsgs dbMsgs) eqn:Hcrank; simpl negb; cbv iota.
  2:{ cbn [calls]. rewrite !in_app_iff. simpl.
      intros [[[[H|[]]|H]|[H|[]]]|[H|[]]]; try discriminate.
      now apply not_in_saves in H. }
  destruct (last batch) as [lastScheduled|] eqn:Hlast.
  2:{ cbn [calls]. rewrite !in_app_iff. simpl.
      intros [[[[H|[]]|H]|[H|[]]]|[H|[]]]; try discriminate.
      now apply not_in_saves in H. }
  intros Hin.
  assert (Hm' : m' = setLastFromSortKey m (scheduledSortKey lastScheduled)).
  { destruct (updateMonitor _); cbn [calls] in Hin; rewrite !in_app_iff in Hin;
      simpl in Hin;
      destruct Hin as [[[[[H|[]]|H]|[H|[]]]|[H|[]]]|[H|[]]]; try discriminate;
      try (now apply not_in_saves in H); now inversion H. }
  exists batch, lastScheduled, dbMsgs. subst m'.
  repeat (split; [reflexivity || assumption|]).
  unfold Monitor.completeCalls.
  destruct (updateMonitor _); cbn [calls]; rewrite <- !app_assoc; reflexivity.
Qed.

Lemma processMonitor_monitor (running : list string) (m : Monitor) :
  monitor (processMonitor running m) <> m ->
  In (CallUpdateMonitor (monitor (processMonitor running m)))
     (calls (processMonitor running m)).
Proof.
  unfold Monitor.processMonitor, fetchScheduled.
  destruct (nothingScheduled _); [simpl; congruence|].
  destruct (fetchJson _) as [| |batch|len]; try (simpl; congruence).
  destruct (forallb saveMsg _); simpl negb; cbv iota; [|simpl; congruence].
  destruct (findLatestMsgs _) as [dbMsgs|]; [|simpl; congruence].
  destruct (crankMsgs dbMsgs); simpl negb; cbv iota; [|simpl; congruence].
  destruct (last batch) as [lastScheduled|]; [|simpl; congruence].
  intros _. destruct (updateMonitor _); cbn [calls monitor];
    rewrite in_app_iff; right; now left.
Qed.

Lemma processMonitor_complete
    (running : list string) (m : Monitor) (batch : list Scheduled)
    (lastScheduled : Scheduled) (dbMsgs : list Saved) :
  fetchJson (scheduledUrl m) = FetchedArray batch ->
  last batch = Some lastScheduled ->
  forallb saveMsg (documents ("scheduled-" +:+ random 0) 1 batch) = true ->
  findLatestMsgs ("scheduled-" +:+ random 0) = Some dbMsgs ->
  crankMsgs dbMsgs = true ->
  updateMonitor (setLastFromSortKey m (scheduledSortKey lastScheduled)) = true ->
  processMonitor running m
  = mkRun (running ++ [id m])
          (setLastFromSortKey m (scheduledSortKey lastScheduled))
          (completeCalls m (setLastFromSortKey m (scheduledSortKey lastScheduled))
             batch dbMsgs)
          (Resolved ReturnedOk).
Proof.
  intros Hf Hlast Hsave Hfind Hcrank Hupd.
  unfold Monitor.processMonitor, fetchScheduled. rewrite Hf.
  assert (Hn : nothingScheduled (FetchedArray batch) = false).
  { destruct batch; [discriminate|]. apply Z.ltb_ge. simpl length. lia. }
  rewrite Hn, Hsave. simpl negb. cbv iota.
  rewrite Hfind, Hcrank. simpl negb. cbv iota. rewrite Hlast, Hupd.
  unfold Monitor.completeCalls. now rewrite <- !app_assoc.
Qed.

(** C10. A run whose fetch of the scheduled messages fails, or fetches an
    empty batch, makes that one request and returns: no message is saved,
    the cranker is not called and the monitor is as it was.  The monitor
    changes only by a run that reaches [updateMonitor]; such a run has
    fetched a non-empty batch, saved every message of it, found them and
    cranked them with success, in this order, and gives the monitor the
    [scheduledSortKey] of the last message of the batch.  A run where all
    of this succeeds does update and persist the monitor. *)
Theorem processMonitor_atomic (running : list string) (m : Monitor) :
  (fetchJson (scheduledUrl m) = FetchedUndefined
   \/ fetchJson (scheduledUrl m) = FetchedArray [] ->
   processMonitor running m
   = mkRun (running ++ [id m]) m [CallFetch (scheduledUrl m)] (Resolved ReturnedEmpty))
  /\ (forall m' : Monitor,
        In (CallUpdateMonitor m') (calls (processMonitor running m)) ->
        exists batch lastScheduled dbMsgs,
          fetchJson (scheduledUrl m) = FetchedArray batch
          /\ last batch = Some lastScheduled
          /\ forallb saveMsg (documents ("scheduled-" +:+ random 0) 1 batch) = true
          /\ findLatestMsgs ("scheduled-" +:+ random 0) = Some dbMsgs
          /\ crankMsgs dbMsgs = true
          /\ m' = setLastFromSortKey m (scheduledSortKey lastScheduled)
          /\ calls (processMonitor running m) = completeCalls m m' batch dbMsgs)
  /\ (monitor (processMonitor running m) <> m ->
      In (CallUpdateMonitor (monitor (processMonitor running m)))
         (calls (processMonitor running m)))
  /\ (forall (batch : list Scheduled) (lastScheduled : Scheduled) (dbMsgs : list Saved),
        fetchJson (scheduledUrl m) = FetchedArray batch ->
        last batch = Some lastScheduled ->
        forallb saveMsg (documents ("scheduled-" +:+ random 0) 1 batch) = true ->
        findLatestMsgs ("scheduled-" +:+ random 0) = Some dbMsgs ->
        crankMsgs dbMsgs = true ->
        updateMonitor (setLastFromSortKey m (scheduledSortKey lastScheduled)) = true ->
        processMonitor running m
        = mkRun (running ++ [id m])
                (setLastFromSortKey m (scheduledSortKey lastScheduled))
                (completeCalls m (setLastFromSortKey m (scheduledSortKey lastScheduled))
                   batch dbMsgs)
                (Resolved ReturnedOk)).
Proof.
  split.
  { intros [H|H]; apply processMonitor_nothing; now rewrite H. }
  split; [exact (processMonitor_update running m)|].
  split; [exact (processMonitor_monitor running m)|].
  exact (processMonitor_complete running m).
Qed.

End WithEnv.

Lemma processMonitor_atomic_witness :
  ((fun _ : string => FetchedArray twoScheduled)
     (Monitor.scheduledUrl "https://cu.example" freshMonitor) = FetchedArray twoScheduled
   /\ last twoScheduled
      = Some (mkScheduled (Some "000001257295,1694181441599,bb"%string) "second"))
  /\ Monitor.processMonitor "https://cu.example" (fun _ => FetchedArray twoScheduled)
       (fun _ => "7"%string) 0 (fun _ => true) (fun _ => Some []) (fun _ => true)
       (fun _ => true) [] freshMonitor
     = mkRun ["process-1"%string]
         (mkMonitor "process-1" true (Some "000001257295,1694181441599,bb"%string)
            "1-minute" 0)
         [CallFetch "https://cu.example/scheduled/process-1";
          CallSaveMsg (mkSaved "7" "scheduled-7" "first" 0);
          CallSaveMsg (mkSaved "7" "scheduled-7" "second" 0);
          CallFindLatestMsgs "scheduled-7";
          CallCrankMsgs [];
          CallUpdateMonitor
            (mkMonitor "process-1" true (Some "000001257295,1694181441599,bb"%string)
               "1-minute" 0)]
         (Resolved ReturnedOk).
Proof.
  split; [split; reflexivity|].
  exact (proj2 (proj2 (proj2
           (processMonitor_atomic "https://cu.example"
              (fun _ => FetchedArray twoScheduled) (fun _ => "7"%string) 0
              (fun _ => true) (fun _ => Some []) (fun _ => true) (fun _ => true)
              [] freshMonitor)))
           twoScheduled
           (mkScheduled (Some "000001257295,1694181441599,bb"%string) "second")
           [] eq_refl eq_refl eq_refl eq_refl eq_refl eq_refl).
Defined.

End MonitorFacts.

(** ** Sort keys: the padded order *)

Module SortKeyOrder.
Import JS SortKey JSFacts SortKeyFacts.

Lemma decimal_fold_shift (s : string) (acc : Z) :
  fold_left (fun a c => 10 * a + digitValue c) (list_ascii_of_string s) acc
  = acc * 10 ^ Z.of_nat (String.length s) + decimalValue s.
Proof.
  unfold decimalValue. revert acc.
  induction s as [|c s IH]; intros acc; simpl String.length;
    cbn [list_ascii_of_string fold_left].
  - simpl. lia.
  - rewrite IH, (IH (10 * 0 + digitValue c)).
    rewrite Nat2Z.inj_succ, Z.pow_succ_r by lia. lia.
Qed.

Lemma decimalValue_cons (c : ascii) (s : string) :
  decimalValue (String c s)
  = digitValue c * 10 ^ Z.of_nat (String.length s) + decimalValue s.
Proof.
  unfold decimalValue at 1. cbn [list_ascii_of_string fold_left].
  rewrite decimal_fold_shift. lia.
Qed.

Lemma digitValue_bounds (c : ascii) : isDigit c = true -> 0 <= digitValue c <= 9.
Proof.
  unfold isDigit, digitValue. intros [H1 H2]%andb_true_iff.
  apply Nat.leb_le in H1, H2. lia.
Qed.

Lemma decimalValue_bounds (s : string) :
  allDigits s = true -> 0 <= decimalValue s < 10 ^ Z.of_nat (String.length s).
Proof.
  induction s as [|c s IH]; [intros _; vm_compute; split; congruence|].
  simpl allDigits. intros [Hc Hs]%andb_true_iff.
  rewrite decimalValue_cons. simpl String.length.
  rewrite Nat2Z.inj_succ, Z.pow_succ_r by lia.
  pose proof (digitValue_bounds c Hc). specialize (IH Hs). nia.
Qed.

Lemma digit_compare (c d : ascii) :
  Ascii.compare c d = Z.compare (digitValue c) (digitValue d).
Proof.
  unfold Ascii.compare, digitValue, nat_of_ascii. rewrite !N_nat_Z.
  destruct (N_of_ascii c ?= N_of_ascii d)%N eqn:Hc; symmetry.
  - apply N.compare_eq in Hc. rewrite Hc. apply Z.compare_refl.
  - apply Z.compare_lt_iff. rewrite N.compare_lt_iff in Hc. lia.
  - apply Z.compare_gt_iff. rewrite N.compare_gt_iff in Hc. lia.
Qed.

(** On digit strings of the same length the order of strings is the
    order of the numbers they write. *)
Lemma compare_same_length (s t : string) :
  allDigits s = true -> allDigits t = true ->
  String.length s = String.length t ->
  String.compare s t = Z.compare (decimalValue s) (decimalValue t).
Proof.
  revert t. induction s as [|c s IH]; intros [|d t]; try discriminate.
  - reflexivity.
  - simpl allDigits. intros [Hc Hs]%andb_true_iff [Hd Ht]%andb_true_iff Hlen.
    simpl in Hlen. injection Hlen as Hlen.
    rewrite !decimalValue_cons, <- Hlen. simpl String.compare.
    rewrite digit_compare.
    pose proof (decimalValue_bounds s Hs) as Bs.
    pose proof (decimalValue_bounds t Ht) as Bt. rewrite <- Hlen in Bt.
    pose proof (digitValue_bounds c Hc). pose proof (digitValue_bounds d Hd).
    destruct (digitValue c ?= digitValue d) eqn:Hcd; symmetry.
    + apply Z.compare_eq in Hcd. rewrite Hcd, (IH t Hs Ht Hlen).
      destruct (decimalValue s ?= decimalValue t) eqn:Hst.
      * apply Z.compare_eq in Hst. rewrite Hst. apply Z.compare_refl.
      * apply Z.compare_lt_iff. rewrite Z.compare_lt_iff in Hst. lia.
      * apply Z.compare_gt_iff. rewrite Z.compare_gt_iff in Hst. lia.
    + apply Z.compare_lt_iff. rewrite Z.compare_lt_iff in Hcd. nia.
    + apply Z.compare_gt_iff. rewrite Z.compare_gt_iff in Hcd. nia.
Qed.

Lemma allDigits_append (s t : string) :
  allDigits (s +:+ t) = allDigits s && allDigits t.
Proof.
  induction s as [|c s IH]; simpl; [reflexivity|]. now rewrite IH, andb_assoc.
Qed.

Lemma allDigits_zeros (n : nat) : allDigits (replicate n "0") = true.
Proof. induction n; simpl; auto. Qed.

Lemma decimalValue_zeros (n : nat) (s : string) :
  decimalValue (replicate n "0" +:+ s) = decimalValue s.
Proof.
  induction n as [|n IH]; [reflexivity|].
  change (replicate (S n) "0" +:+ s) with (String "0" (replicate n "0" +:+ s)).
  rewrite decimalValue_cons, IH.
  change (digitValue "0") with 0. lia.
Qed.

Lemma padStart_digits (s : string) :
  allDigits s = true -> (String.length s <= 12)%nat ->
  allDigits (padStart 12 "0" s) = true
  /\ String.length (padStart 12 "0" s) = 12%nat
  /\ decimalValue (padStart 12 "0" s) = decimalValue s.
Proof.
  intros Hs Hlen. split; [|split].
  - unfold padStart. now rewrite allDigits_append, allDigits_zeros, Hs.
  - rewrite length_padStart. lia.
  - apply decimalValue_zeros.
Qed.

(** X1. On block heights of at most 12 digits, the order of the padded
    keys as strings is the order of the heights as numbers. *)
Theorem padBlockHeight_numeric_order (a b : string) :
  allDigits a = true -> truthy a = true -> (String.length a <= 12)%nat ->
  allDigits b = true -> truthy b = true -> (String.length b <= 12)%nat ->
  exists ka kb,
    padBlockHeight (Some a) = Some ka
    /\ padBlockHeight (Some b) = Some kb
    /\ String.compare ka kb = Z.compare (decimalValue a) (decimalValue b).
Proof.
  intros Ha Ta La Hb Tb Lb.
  exists (padStart 12 "0" a), (padStart 12 "0" b).
  rewrite !padBlockHeight_height by auto using allDigits_noComma.
  split; [reflexivity|]. split; [reflexivity|].
  destruct (padStart_digits a Ha La) as [Da [Na Va]].
  destruct (padStart_digits b Hb Lb) as [Db [Nb Vb]].
  rewrite compare_same_length by congruence. now rewrite Va, Vb.
Qed.

Lemma padBlockHeight_numeric_order_witness :
  (allDigits "1257294" = true /\ truthy "1257294" = true
   /\ (String.length "1257294" <= 12)%nat
   /\ allDigits "999" = true /\ truthy "999" = true
   /\ (String.length "999" <= 12)%nat)
  /\ exists ka kb,
      padBlockHeight (Some "1257294"%string) = Some ka
      /\ padBlockHeight (Some "999"%string) = Some kb
      /\ String.compare ka kb = Z.compare (decimalValue "1257294") (decimalValue "999").
Proof.
  split; [repeat split; simpl; lia|].
  apply (padBlockHeight_numeric_order "1257294" "999"); try reflexivity; simpl; lia.
Defined.

Lemma nzhead_not_D0 (d u : Decimal.uint) : Decimal.nzhead d <> Decimal.D0 u.
Proof. induction d; simpl; congruence. Qed.

Lemma to_uint_leading (p : positive) (u : Decimal.uint) :
  Pos.to_uint p <> Decimal.D0 u.
Proof.
  intros Hd.
  pose proof (DecimalPos.Unsigned.of_to p) as Hof.
  pose proof (DecimalPos.Unsigned.to_of (Pos.to_uint p)) as Hto.
  rewrite Hof in Hto. change (N.to_uint (N.pos p)) with (Pos.to_uint p) in Hto.
  rewrite Hd in Hto. unfold Decimal.unorm in Hto.
  destruct (Decimal.nzhead (Decimal.D0 u)) eqn:Hn; try discriminate Hto.
  - injection Hto as ->. rewrite Hd in Hof. discriminate.
  - now apply nzhead_not_D0 in Hn.
Qed.

Lemma length_string_of_uint_leading (d : Decimal.uint) :
  (forall u, d <> Decimal.D0 u) -> d <> Decimal.Nil ->
  10 ^ Z.of_nat (String.length (NilEmpty.string_of_uint d) - 1)
  <= decimalValue (NilEmpty.string_of_uint d).
Proof.
  intros H0 Hnil.
  destruct d; [congruence | now destruct (H0 d) |..];
    cbn [NilEmpty.string_of_uint]; rewrite decimalValue_cons;
    cbn [String.length]; rewrite Nat.sub_succ, Nat.sub_0_r;
    pose proof (decimalValue_bounds _ (allDigits_string_of_uint d));
    match goal with
    | |- context [digitValue ?c] =>
        let v := eval vm_compute in (digitValue c) in change (digitValue c) with v
    end; nia.
Qed.

(** The decimal writing of a number below [10 ^ n] has at most [n] digits. *)
Lemma length_numberToString (z : Z) (n : nat) :
  0 <= z < 10 ^ Z.of_nat n -> (1 <= n)%nat ->
  (String.length (numberToString (Some z)) <= n)%nat.
Proof.
  intros [Hz Hlt] Hn. destruct z as [|p|p]; [simpl; lia| |lia].
  pose proof (decimalValue_numberToString (Z.pos p) Hz) as Hv.
  unfold numberToString in *. simpl in *.
  pose proof (to_uint_leading p) as H0.
  assert (Hnil : Pos.to_uint p <> Decimal.Nil).
  { intros Hd. pose proof (DecimalPos.Unsigned.of_to p) as Hof.
    rewrite Hd in Hof. discriminate. }
  unfold NilZero.string_of_uint in *.
  destruct (Pos.to_uint p) as [|u|u|u|u|u|u|u|u|u|u] eqn:Hd; [congruence|..];
    rewrite <- Hd in *;
    pose proof (length_string_of_uint_leading _ H0 Hnil) as Hlow;
    rewrite Hv in Hlow;
    destruct (Nat.le_gt_cases (String.length (NilEmpty.string_of_uint (Pos.to_uint p))) n)
      as [Hle|Hgt]; try exact Hle;
    exfalso;
    assert (Hpow : 10 ^ Z.of_nat n
                   <= 10 ^ Z.of_nat (String.length
                                       (NilEmpty.string_of_uint (Pos.to_uint p)) - 1))
      by (apply Z.pow_le_mono_r; lia);
    lia.
Qed.

Lemma compare_append_lt (s t x y : string) :
  String.length s = String.length t ->
  String.compare s t = Lt -> String.compare (s +:+ x) (t +:+ y) = Lt.
Proof.
  revert t. induction s as [|c s IH]; intros [|d t]; try discriminate.
  simpl. intros Hlen. injection Hlen as Hlen.
  destruct (Ascii.compare c d); [now apply IH | reflexivity | discriminate].
Qed.

Lemma append_empty_r (s : string) : s +:+ EmptyString = s.
Proof.
  induction s as [|c s IH]; [reflexivity|].
  change (String c s +:+ EmptyString) with (String c (s +:+ EmptyString)).
  now rewrite IH.
Qed.

(** X2. Incrementing a [to] bound that is a block height alone makes it
    an upper bound of its block: the padded height itself and every sort
    key of that block (the padded height followed by further fields) sort
    strictly below the bound that is sent. *)
Theorem incrementBound_bounds_block (height rest : string) :
  allDigits height = true -> truthy height = true ->
  (String.length height <= 12)%nat ->
  decimalValue height + 1 < 10 ^ 12 ->
  exists bound,
    incrementBound (Some height) = Some bound
    /\ padBlockHeight (Some (height +:+ String comma rest))
       = Some (padStart 12 "0" height +:+ String comma rest)
    /\ String.compare (padStart 12 "0" height +:+ String comma rest) bound = Lt
    /\ String.compare (padStart 12 "0" height) bound = Lt.
Proof.
  intros Hd Ht Hlen Hfit.
  pose proof (decimalValue_nonneg _ Hd) as Hv.
  set (next := numberToString (Some (decimalValue height + 1))).
  assert (Hnd : allDigits next = true) by (apply allDigits_numberToString; lia).
  assert (Hnl : (String.length next <= 12)%nat).
  { apply length_numberToString; [|lia]. change (Z.of_nat 12) with 12. lia. }
  assert (Hnv : decimalValue next = decimalValue height + 1)
    by (apply decimalValue_numberToString; lia).
  destruct (padStart_digits height Hd Hlen) as [Dh [Nh Vh]].
  destruct (padStart_digits next Hnd Hnl) as [Dn [Nn Vn]].
  assert (Hlt : String.compare (padStart 12 "0" height) (padStart 12 "0" next) = Lt).
  { rewrite compare_same_length by congruence. rewrite Vh, Vn, Hnv.
    apply Z.compare_lt_iff. lia. }
  exists (padStart 12 "0" next).
  split; [now apply incrementBound_height|].
  split; [apply padBlockHeight_fields; now apply allDigits_noComma|].
  split; [|exact Hlt].
  rewrite <- (append_empty_r (padStart 12 "0" next)).
  apply compare_append_lt; [congruence | exact Hlt].
Qed.

Lemma incrementBound_bounds_block_witness :
  (allDigits "1257294" = true /\ truthy "1257294" = true
   /\ (String.length "1257294" <= 12)%nat
   /\ decimalValue "1257294" + 1 < 10 ^ 12)
  /\ exists bound,
      incrementBound (Some "1257294"%string) = Some bound
      /\ String.compare "000001257294,1694181441598,fb1e" bound = Lt.
Proof.
  split; [repeat split; simpl; lia|].
  destruct (incrementBound_bounds_block "1257294" "1694181441598,fb1e")
    as [bound [Hb [_ [Hlt _]]]]; try reflexivity; [simpl; lia|].
  exists bound. split; [exact Hb | exact Hlt].
Defined.

End SortKeyOrder.

(** ** Positions: the order behind [isLaterThan] *)

Module AoProcessOrder.
Import JS Async Model AoProcess AoProcessFacts CheckpointOrder.

Lemma ascii_compare_refl (c : ascii) : Ascii.compare c c = Eq.
Proof. unfold Ascii.compare. apply N.compare_refl. Qed.

Lemma ascii_compare_trans (a b c : ascii) :
  Ascii.compare a b = Lt -> Ascii.compare b c = Lt -> Ascii.compare a c = Lt.
Proof.
  unfold Ascii.compare. rewrite !N.compare_lt_iff. apply N.lt_trans.
Qed.

Lemma string_compare_trans (a b c : string) :
  String.compare a b = Lt -> String.compare b c = Lt -> String.compare a c = Lt.
Proof.
  revert b c. induction a as [|x a IH]; intros [|y b] [|z c]; simpl;
    try congruence.
  destruct (Ascii.compare x y) eqn:Hxy; try discriminate;
    destruct (Ascii.compare y z) eqn:Hyz; try discriminate; intros Hab Hbc.
  - apply Ascii.compare_eq_iff in Hxy, Hyz. subst.
    rewrite ascii_compare_refl. eauto.
  - apply Ascii.compare_eq_iff in Hxy. subst. now rewrite Hyz.
  - apply Ascii.compare_eq_iff in Hyz. subst. now rewrite Hxy.
  - now rewrite (ascii_compare_trans _ _ _ Hxy Hyz).
Qed.

Lemma stringGreaterThan_asym (a b : string) :
  stringGreaterThan a b && stringGreaterThan b a = false.
Proof.
  unfold stringGreaterThan, String.ltb. rewrite (String.compare_antisym a b).
  destruct (String.compare b a); reflexivity.
Qed.

Lemma strictEquals_sym (a b : value) : strictEquals a b = strictEquals b a.
Proof.
  destruct a, b; simpl; try reflexivity; [apply Z.eqb_sym | apply String.eqb_sym].
Qed.

Section Order.

Variable StringToNumber : string -> option Z.

Lemma greaterThan_asym (a b : value) :
  greaterThan StringToNumber a b && greaterThan StringToNumber b a = false.
Proof.
  destruct a as [|x|x], b as [|y|y]; simpl; try reflexivity;
    try (now destruct (StringToNumber x)); try (now destruct (StringToNumber y));
    try apply stringGreaterThan_asym.
  - destruct (Z.ltb_spec y x), (Z.ltb_spec x y); try reflexivity; lia.
  - destruct (StringToNumber y) as [n|]; [|reflexivity].
    destruct (Z.ltb_spec n x), (Z.ltb_spec x n); try reflexivity; lia.
  - destruct (StringToNumber x) as [n|]; [|reflexivity].
    destruct (Z.ltb_spec y n), (Z.ltb_spec n y); try reflexivity; lia.
Qed.

Lemma greaterThan_irrefl (a : value) : greaterThan StringToNumber a a = false.
Proof.
  pose proof (greaterThan_asym a a) as H.
  destruct (greaterThan StringToNumber a a); [discriminate | reflexivity].
Qed.

(** X3. [isLaterThan] is irreflexive and asymmetric on every pair of
    values, strings and numbers mixed included; hence its complement
    [isEarlierThan] holds of a value and itself, and of any two values in
    at least one direction. *)
Theorem isLaterThan_strict {A B : Type} `{Dated A} `{Dated B} (a : A) (b : B) :
  isLaterThan StringToNumber a a = false
  /\ isLaterThan StringToNumber a b && isLaterThan StringToNumber b a = false
  /\ isEarlierThan StringToNumber a a = true
  /\ isEarlierThan StringToNumber a b || isEarlierThan StringToNumber b a = true.
Proof.
  assert (Hirr : isLaterThan StringToNumber a a = false).
  { unfold isLaterThan. rewrite strictEquals_refl.
    pose proof (stringGreaterThan_asym (orEmpty (cron a)) (orEmpty (cron a))) as Hs.
    destruct (stringGreaterThan _ _); [discriminate | reflexivity]. }
  assert (Hasym : isLaterThan StringToNumber a b && isLaterThan StringToNumber b a = false).
  { unfold isLaterThan. rewrite (strictEquals_sym (timestamp a) (timestamp b)).
    destruct (strictEquals (timestamp b) (timestamp a));
      [apply stringGreaterThan_asym | apply greaterThan_asym]. }
  split; [exact Hirr|]. split; [exact Hasym|].
  unfold isEarlierThan. rewrite Hirr. split; [reflexivity|].
  rewrite <- negb_andb. now rewrite Hasym.
Qed.

Lemma isLaterThan_checkpoints (a b : Checkpoint.t) :
  isLaterThan StringToNumber a b = true <-> checkpointBefore a b.
Proof.
  unfold isLaterThan, checkpointBefore. simpl.
  destruct (Checkpoint.timestamp a) as [x|], (Checkpoint.timestamp b) as [y|]; simpl.
  - destruct (String.eqb_spec y x) as [->|Hne]; rewrite stringGreaterThan_spec.
    + split; [auto|]. intros [[_ Hc]|[x' [y' [Hx [Hy Hlt]]]]]; [exact Hc|].
      injection Hx as <-. injection Hy as <-.
      rewrite string_compare_refl in Hlt. discriminate.
    + split; [eauto 6|]. intros [[Heq _]|[x' [y' [Hx [Hy Hlt]]]]]; [congruence|].
      now injection Hx as <-; injection Hy as <-.
  - destruct (StringToNumber x); split; try discriminate;
      intros [[Heq _]|[x' [y' [_ [Hy _]]]]]; discriminate.
  - destruct (StringToNumber y); split; try discriminate;
      intros [[Heq _]|[x' [y' [Hx _]]]]; discriminate.
  - rewrite stringGreaterThan_spec. split; [auto|].
    intros [[_ Hc]|[x' [y' [Hx _]]]]; [exact Hc | discriminate].
Qed.

(** X4. Between Checkpoints [isLaterThan] is transitive. *)
Theorem isLaterThan_checkpoints_transitive (a b c : Checkpoint.t) :
  isLaterThan StringToNumber a b = true ->
  isLaterThan StringToNumber b c = true ->
  isLaterThan StringToNumber a c = true.
Proof.
  rewrite !isLaterThan_checkpoints. unfold checkpointBefore.
  intros [[Hab Hc1]|[x [y [Hx [Hy Hxy]]]]] [[Hbc Hc2]|[y' [z [Hy' [Hz Hyz]]]]].
  - left. split; [congruence | eapply string_compare_trans; eauto].
  - right. exists y', z. repeat split; congruence.
  - right. exists x, y. repeat split; congruence.
  - right. exists x, z. repeat split; try assumption.
    assert (y = y') by congruence. subst. eapply string_compare_trans; eauto.
Qed.

End Order.

Lemma isLaterThan_checkpoints_transitive_witness :
  (isLaterThan (fun _ => None)
     (Checkpoint.mk "a" (Some "10"%string) (Some "1"%string) None None None)
     (Checkpoint.mk "b" (Some "20"%string) (Some "2"%string) None None None) = true
   /\ isLaterThan (fun _ => None)
        (Checkpoint.mk "b" (Some "20"%string) (Some "2"%string) None None None)
        (Checkpoint.mk "c" (Some "20"%string) (Some "3"%string) None (Some "1m"%string) None)
      = true)
  /\ isLaterThan (fun _ => None)
       (Checkpoint.mk "a" (Some "10"%string) (Some "1"%string) None None None)
       (Checkpoint.mk "c" (Some "20"%string) (Some "3"%string) None (Some "1m"%string) None)
     = true.
Proof.
  split; [split; reflexivity|].
  exact (isLaterThan_checkpoints_transitive (fun _ => None)
           (Checkpoint.mk "a" (Some "10"%string) (Some "1"%string) None None None)
           (Checkpoint.mk "b" (Some "20"%string) (Some "2"%string) None None None)
           (Checkpoint.mk "c" (Some "20"%string) (Some "3"%string) None
              (Some "1m"%string) None)
           eq_refl eq_refl).
Defined.

Section Latest.

Variable StringToNumber : string -> option Z.

Abbreviation later := (isLaterThan StringToNumber).
Abbreviation step := (latestCheckpointStep StringToNumber).

Lemma fold_step_elem (requested : Position.t) (cks : list Checkpoint.t)
    (latest : Checkpoint.t) :
  exists r, fold_left (step requested) cks (Some latest) = Some r
            /\ (r = latest \/ r ∈ cks).
Proof.
  revert latest. induction cks as [|k cks IH]; intros latest.
  - exists latest. auto.
  - cbn [fold_left latestCheckpointStep].
    destruct (later requested k);
      [|destruct (isEarlierThan StringToNumber latest k)].
    + destruct (IH latest) as [r [Hr [Heq|Hin]]]; exists r; split; auto.
      right. now apply list_elem_of_further.
    + destruct (IH latest) as [r [Hr [Heq|Hin]]]; exists r; split; auto.
      right. now apply list_elem_of_further.
    + destruct (IH k) as [r [Hr [Heq|Hin]]]; exists r; split; auto.
      * right. subst. apply list_elem_of_here.
      * right. now apply list_elem_of_further.
Qed.

(** X5. On a page that is not empty [determineLatestCheckpointBefore]
    always selects a Checkpoint, and one of the page, wherever the
    requested position lies; it selects none exactly on the empty page. *)
Theorem determineLatestCheckpointBefore_of_page
    (requested : Position.t) (edges : list Edge) :
  match determineLatestCheckpointBefore StringToNumber requested edges with
  | Some latest => edges <> [] /\ latest ∈ toCheckpoint <$> edges
  | None => edges = []
  end.
Proof.
  unfold determineLatestCheckpointBefore.
  destruct edges as [|edge edges]; [reflexivity|].
  rewrite fmap_cons. cbn [fold_left latestCheckpointStep].
  destruct (fold_step_elem requested (toCheckpoint <$> edges) (toCheckpoint edge))
    as [r [-> [Heq|Hin]]]; (split; [discriminate|]).
  - subst. apply list_elem_of_here.
  - now apply list_elem_of_further.
Qed.

Lemma fold_step_latest (requested : Position.t) (cks seen : list Checkpoint.t)
    (latest : Checkpoint.t) :
  later requested latest = false ->
  (forall c, c ∈ seen -> later requested c = false -> later latest c = false) ->
  exists r,
    fold_left (step requested) cks (Some latest) = Some r
    /\ later requested r = false
    /\ forall c, c ∈ seen ++ cks -> later requested c = false -> later r c = false.
Proof.
  revert seen latest. induction cks as [|k cks IH]; intros seen latest Hreq Hseen.
  - exists latest. rewrite app_nil_r. auto.
  - cbn [fold_left latestCheckpointStep].
    replace (seen ++ k :: cks) with ((seen ++ [k]) ++ cks)
      by (now rewrite <- app_assoc).
    destruct (later requested k) eqn:Hk.
    + apply IH; [exact Hreq|].
      intros c [Hc|Hc]%elem_of_app; [now apply Hseen|].
      apply list_elem_of_singleton in Hc. subst. congruence.
    + unfold isEarlierThan. destruct (later latest k) eqn:Hlk; simpl.
      * apply IH; [exact Hk|].
        intros c [Hc|Hc]%elem_of_app Hu.
        -- destruct (later k c) eqn:Hkc; [|reflexivity].
           pose proof (isLaterThan_checkpoints_transitive StringToNumber _ _ _ Hlk Hkc).
           rewrite (Hseen c Hc Hu) in *. discriminate.
        -- apply list_elem_of_singleton in Hc. subst.
           apply (isLaterThan_strict StringToNumber k k).
      * apply IH; [exact Hreq|].
        intros c [Hc|Hc]%elem_of_app Hu; [now apply Hseen|].
        apply list_elem_of_singleton in Hc. now subst.
Qed.

(** X6. When the first Checkpoint of the page is not later than the
    requested position, [determineLatestCheckpointBefore] selects a
    Checkpoint of the page that is not later than the requested position
    and than which no other such Checkpoint of the page is later. *)
Theorem determineLatestCheckpointBefore_latest
    (requested : Position.t) (edge : Edge) (edges : list Edge) :
  later requested (toCheckpoint edge) = false ->
  exists latest,
    determineLatestCheckpointBefore StringToNumber requested (edge :: edges)
    = Some latest
    /\ latest ∈ toCheckpoint <$> (edge :: edges)
    /\ later requested latest = false
    /\ forall c, c ∈ toCheckpoint <$> (edge :: edges) ->
                 later requested c = false -> later latest c = false.
Proof.
  intros Hfirst.
  pose proof (determineLatestCheckpointBefore_of_page requested (edge :: edges)) as Hpage.
  unfold determineLatestCheckpointBefore in *. rewrite fmap_cons in *.
  cbn [fold_left latestCheckpointStep] in *.
  destruct (fold_step_latest requested (toCheckpoint <$> edges) [toCheckpoint edge]
              (toCheckpoint edge) Hfirst) as [r [Hr [Hreq Hmax]]].
  { intros c Hc _. apply list_elem_of_singleton in Hc. subst.
    apply (isLaterThan_strict StringToNumber (toCheckpoint edge) (toCheckpoint edge)). }
  rewrite Hr in Hpage. exists r. repeat split; try assumption; apply Hpage.
Qed.

End Latest.

Lemma determineLatestCheckpointBefore_latest_witness :
  isLaterThan (fun _ => None) (Position.mk (VString "30") (VString "3") None)
    (toCheckpoint (mkEdge "checkpoint-10" "owner-1" [mkTag "Timestamp" "10"])) = false
  /\ exists latest,
      determineLatestCheckpointBefore (fun _ => None)
        (Position.mk (VString "30") (VString "3") None)
        [mkEdge "checkpoint-10" "owner-1" [mkTag "Timestamp" "10"];
         mkEdge "checkpoint-40" "owner-1" [mkTag "Timestamp" "40"];
         mkEdge "checkpoint-20" "owner-1" [mkTag "Timestamp" "20"]]
      = Some latest
      /\ Checkpoint.id latest = "checkpoint-20"%string.
Proof.
  split; [reflexivity|].
  destruct (determineLatestCheckpointBefore_latest (fun _ => None)
              (Position.mk (VString "30") (VString "3") None)
              (mkEdge "checkpoint-10" "owner-1" [mkTag "Timestamp" "10"])
              [mkEdge "checkpoint-40" "owner-1" [mkTag "Timestamp" "40"];
               mkEdge "checkpoint-20" "owner-1" [mkTag "Timestamp" "20"]] eq_refl)
    as [latest [Hlatest _]].
  exists latest. split; [exact Hlatest|].
  vm_compute in Hlatest. now injection Hlatest as <-.
Defined.

End AoProcessOrder.

(** ** The memory cache and Checkpoints: further properties *)

Module AoProcessMore.
Import JS Async Model AoProcess AoProcessFacts.

Section Cache.

Variable StringToNumber : string -> option Z.
Variable gzip : bytes -> bytes.
Variable gunzip : bytes -> option bytes.
Variable COLLATION_SEQUENCE_MIN_CHAR : string.
Variable queryGateway : Query -> option (list Edge).
Variable loadTransactionData : string -> option bytes.

Abbreviation save := (saveLatestProcessMemory StringToNumber gzip).
Abbreviation find :=
  (findProcessMemoryBefore StringToNumber gunzip COLLATION_SEQUENCE_MIN_CHAR
     queryGateway loadTransactionData).



(** X9. [findProcessMemoryBefore] never rejects.  When it resolves
    without a memory, it resolves to the cold start, with the minimum
    collation character as ordinate; the one other way it can end is the
    exception thrown for a selected Checkpoint whose encoding is not
    gzip. *)
Theorem findProcessMemoryBefore_settles
    (cache : gmap string Entry.t) (processId : string) (requested : Position.t) :
  match find cache processId requested with
  | Resolved found =>
      Found.Memory found = None ->
      found = {| Found.Memory := None;
                 Found.timestamp := VUndefined;
                 Found.blockHeight := VUndefined;
                 Found.cron := None;
                 Found.ordinate := VString COLLATION_SEQUENCE_MIN_CHAR |}
  | Rejected _ => False
  | Thrown _ =>
      exists query edges position latest,
        queryGateway query = Some edges
        /\ determineLatestCheckpointBefore StringToNumber position edges = Some latest
        /\ supportedEncoding (Checkpoint.encoding latest) = false
  end.
Proof.
  unfold findProcessMemoryBefore.
  destruct (maybeCached _ _ _ _ _) as [found|ctx] eqn:Hcached.
  { unfold maybeCached in Hcached.
    destruct (cache !! processId) as [cached|]; [|discriminate].
    destruct (_ && _); [discriminate|].
    destruct (gunzip _); [|discriminate].
    injection Hcached as <-. discriminate. }
  unfold maybeCheckpointFromArweave.
  destruct (queryGateway _) as [edges|] eqn:Hq; [|reflexivity].
  destruct (determineLatestCheckpointBefore _ _ _) as [latest|] eqn:Hl; [|reflexivity].
  destruct (supportedEncoding _) eqn:Hs; simpl negb; cbv iota.
  2:{ eauto 8. }
  destruct (loadTransactionData _); [|reflexivity].
  destruct (decodeData _ _ _); [discriminate | reflexivity].
Qed.

(** X23. A cached memory later than the requested position is never
    served: the call then settles as it would with nothing cached.  A
    request without timestamp (undefined, 0 or empty) is served from the
    cache wherever the cached evaluation lies. *)
Theorem cached_memory_not_later
    (cache : gmap string Entry.t) (processId : string) (requested : Position.t)
    (cached : Entry.t) :
  cache !! processId = Some cached ->
  (valueTruthy (Position.timestamp requested) = true ->
   isLaterThan StringToNumber requested (Entry.evaluation cached) = true ->
   find cache processId requested = find ∅ processId requested)
  /\ (valueTruthy (Position.timestamp requested) = false ->
      forall Memory, gunzip (Entry.Memory cached) = Some Memory ->
      find cache processId requested
      = Resolved {| Found.Memory := Some Memory;
                    Found.timestamp := Evaluation.timestamp (Entry.evaluation cached);
                    Found.blockHeight := Evaluation.blockHeight (Entry.evaluation cached);
                    Found.cron := Evaluation.cron (Entry.evaluation cached);
                    Found.ordinate := Evaluation.ordinate (Entry.evaluation cached) |}).
Proof.
  intros Hc. unfold findProcessMemoryBefore, maybeCached.
  rewrite Hc, lookup_empty. cbn [Ctx.timestamp]. split.
  - intros Ht Hl. unfold position. cbn [Ctx.timestamp Ctx.ordinate Ctx.cron].
    destruct requested as [ts ord cr]. simpl in *. now rewrite Ht, Hl.
  - intros Ht Memory Hm. now rewrite Ht, Hm.
Qed.

End Cache.

Lemma cached_memory_not_later_witness :
  (({[ "process-1"%string :=
        Entry.mk [] (Evaluation.mk "process-1" VUndefined (VNumber 20) VUndefined
                       VUndefined VUndefined (VString "2") None None) ]}
      : gmap string Entry.t) !! "process-1"%string
   = Some (Entry.mk [] (Evaluation.mk "process-1" VUndefined (VNumber 20) VUndefined
                          VUndefined VUndefined (VString "2") None None))
   /\ valueTruthy (VNumber 10) = true
   /\ isLaterThan (fun _ => None) (Position.mk (VNumber 10) (VString "1") None)
        (Evaluation.mk "process-1" VUndefined (VNumber 20) VUndefined
           VUndefined VUndefined (VString "2") None None) = true)
  /\ findProcessMemoryBefore (fun _ => None) (fun m => Some m) "0"
       (fun _ => None) (fun _ => None)
       {[ "process-1"%string :=
            Entry.mk [] (Evaluation.mk "process-1" VUndefined (VNumber 20) VUndefined
                           VUndefined VUndefined (VString "2") None None) ]}
       "process-1" (Position.mk (VNumber 10) (VString "1") None)
     = findProcessMemoryBefore (fun _ => None) (fun m => Some m) "0"
         (fun _ => None) (fun _ => None) ∅
         "process-1" (Position.mk (VNumber 10) (VString "1") None).
Proof.
  assert (Hc : ({[ "process-1"%string :=
                    Entry.mk [] (Evaluation.mk "process-1" VUndefined (VNumber 20)
                                   VUndefined VUndefined VUndefined (VString "2")
                                   None None) ]}
                  : gmap string Entry.t) !! "process-1"%string
               = Some (Entry.mk [] (Evaluation.mk "process-1" VUndefined (VNumber 20)
                                      VUndefined VUndefined VUndefined (VString "2")
                                      None None)))
    by apply lookup_singleton_eq.
  split; [split; [exact Hc | split; reflexivity]|].
  exact (proj1 (cached_memory_not_later (fun _ => None) (fun m => Some m) "0"
                  (fun _ => None) (fun _ => None) _ "process-1"
                  (Position.mk (VNumber 10) (VString "1") None) _ Hc)
           eq_refl eq_refl).
Defined.



Section Publication.

Variable address : option string.
Variable queryGateway : Query -> option (list Edge).
Variable hashWasmMemory : bytes -> option string -> option string.
Variable buildAndSignDataItem : DataItem -> option Signed.
Variable uploadDataItem : bytes -> option string.

Abbreviation saveCheckpoint :=
  (saveCheckpoint address queryGateway hashWasmMemory buildAndSignDataItem
     uploadDataItem).

(** X10. [saveCheckpoint] uploads only as the last of five calls: after
    the address, a gateway answer with no Checkpoint, the hash of the
    memory and the signature of the data item built from the memory and
    the Checkpoint tags have all resolved, and what it uploads is the
    signed data; the call then resolves exactly when the upload does. *)
Theorem saveCheckpoint_upload_last (args : Save.t) (uploaded : bytes) :
  In (CallUploadDataItem uploaded) (fst (saveCheckpoint args)) ->
  exists owner sha item,
    address = Some owner
    /\ queryGateway (existingCheckpointQuery owner args) = Some []
    /\ hashWasmMemory (Save.Memory args) (Save.encoding args) = Some sha
    /\ buildAndSignDataItem (mkDataItem (Save.Memory args) (checkpointTags args sha))
       = Some item
    /\ uploaded = signedData item
    /\ saveCheckpoint args
       = ([CallAddress;
           CallQueryGateway (existingCheckpointQuery owner args);
           CallHashWasmMemory (Save.Memory args) (Save.encoding args);
           CallBuildAndSignDataItem
             (mkDataItem (Save.Memory args) (checkpointTags args sha));
           CallUploadDataItem uploaded],
          match uploadDataItem uploaded with
          | Some _ => Resolved tt
          | None => Rejected "uploadDataItem"
          end).
Proof.
  unfold AoProcess.saveCheckpoint.
  destruct address as [owner|]; [|simpl; intros [H|[]]; discriminate].
  destruct (queryGateway _) as [[|checkpoint others]|] eqn:Hq;
    try (simpl; intros [H|[H|[]]]; discriminate).
  unfold createAndUpload, createCheckpointDataItem.
  destruct (hashWasmMemory _ _) as [sha|] eqn:Hh;
    [|simpl; intros [H|[H|[H|[]]]]; discriminate].
  destruct (buildAndSignDataItem _) as [item|] eqn:Hs;
    [|simpl; intros [H|[H|[H|[H|[]]]]]; discriminate].
  intros Hin.
  assert (Hup : uploaded = signedData item).
  { destruct (uploadDataItem _); simpl in Hin;
      destruct Hin as [H|[H|[H|[H|[H|[]]]]]]; try discriminate; now inversion H. }
  subst uploaded. exists owner, sha, item.
  repeat (split; [reflexivity || assumption|]).
  now destruct (uploadDataItem _).
Qed.

End Publication.

Lemma saveCheckpoint_upload_last_witness :
  In (CallUploadDataItem [])
     (fst (AoProcess.saveCheckpoint (Some "owner-1"%string) (fun _ => Some [])
             (fun _ _ => Some "sha"%string) (fun item => Some (mkSigned "id" (data item)))
             (fun _ => Some "id"%string) cronEvaluation))
  /\ exists owner sha item,
      (fun item => Some (mkSigned "id" (data item)))
        (mkDataItem (Save.Memory cronEvaluation) (checkpointTags cronEvaluation sha))
      = Some item
      /\ existingCheckpointQuery owner cronEvaluation
         = GetAoProcessCheckpoint true "owner-1" "process-1" "7" "1700000000000"
             (Some "10-minutes"%string).
Proof.
  assert (Hin : In (CallUploadDataItem [])
                  (fst (AoProcess.saveCheckpoint (Some "owner-1"%string) (fun _ => Some [])
                          (fun _ _ => Some "sha"%string)
                          (fun item => Some (mkSigned "id" (data item)))
                          (fun _ => Some "id"%string) cronEvaluation))).
  { simpl. auto 6. }
  split; [exact Hin|].
  destruct (saveCheckpoint_upload_last (Some "owner-1"%string) (fun _ => Some [])
              (fun _ _ => Some "sha"%string)
              (fun item => Some (mkSigned "id" (data item)))
              (fun _ => Some "id"%string) cronEvaluation [] Hin)
    as [owner [sha [item [Ha [_ [_ [Hs _]]]]]]].
  exists owner, sha, item. split; [exact Hs|].
  injection Ha as <-. reflexivity.
Defined.

(** X11. What [saveCheckpoint] publishes, Checkpoint discovery reads
    back: from the tags of the data item, [determineLatestCheckpointBefore]
    plucks the timestamp, the nonce (as ordinate) and the block height of
    the evaluation, as trimmed text, and its cron interval and encoding
    when they are not empty. *)
Theorem checkpoint_tags_read_back
    (args : Save.t) (sha nodeId owner : string) :
  toCheckpoint (mkEdge nodeId owner (checkpointTags args sha))
  = {| Checkpoint.id := nodeId;
       Checkpoint.timestamp := Some (trim (templateString (Save.timestamp args)));
       Checkpoint.ordinate := Some (trim (templateString (Save.nonce args)));
       Checkpoint.blockHeight := Some (trim (templateString (Save.blockHeight args)));
       Checkpoint.cron :=
         if truthy (orEmpty (Save.cron args)) then Some (orEmpty (Save.cron args))
         else None;
       Checkpoint.encoding :=
         if truthy (orEmpty (Save.encoding args)) then Some (orEmpty (Save.encoding args))
         else None |}.
Proof.
  unfold toCheckpoint, checkpointTags.
  destruct (truthy (orEmpty (Save.cron args)));
    destruct (truthy (orEmpty (Save.encoding args))); reflexivity.
Qed.

End AoProcessMore.

(** ** The monitor worker: the in-flight list *)

Module MonitorLoopFacts.
Import JS Async Monitor MonitorLoop MonitorFacts.

Lemma findIndex_None (running : list string) (monitorId : string) :
  findIndex running monitorId = None <-> monitorId ∉ running.
Proof.
  induction running as [|item items IH]; simpl.
  - split; [intros _; apply not_elem_of_nil | reflexivity].
  - rewrite not_elem_of_cons. destruct (String.eqb_spec item monitorId) as [->|Hne].
    + split; [discriminate | intros [H _]; congruence].
    + destruct (findIndex items monitorId); simpl.
      * split; [discriminate|]. intros [_ H]. now apply IH in H.
      * split; [|reflexivity]. intros _. split; [congruence | now apply IH].
Qed.

Lemma shouldRun_spec (running : list string) (m : Monitor) :
  shouldRun running m = true <-> id m ∉ running.
Proof.
  unfold shouldRun. rewrite <- findIndex_None.
  destruct (findIndex running (id m)); split; congruence.
Qed.

Lemma shouldRun_false (running : list string) (m : Monitor) :
  shouldRun running m = false <-> id m ∈ running.
Proof.
  pose proof (shouldRun_spec running m) as H.
  destruct (shouldRun running m); split; try congruence.
  - intros Hin. exfalso. now apply H.
  - intros _. destruct (decide (id m ∈ running)) as [Hin|Hnin]; [exact Hin|].
    apply H in Hnin. discriminate.
Qed.

Lemma findIndex_lookup (running : list string) (monitorId : string) (i : nat) :
  findIndex running monitorId = Some i -> running !! i = Some monitorId.
Proof.
  revert i. induction running as [|item items IH]; intros i; simpl; [discriminate|].
  destruct (String.eqb_spec item monitorId) as [->|Hne].
  - now intros [= <-].
  - destruct (findIndex items monitorId) as [j|]; simpl; [|discriminate].
    intros [= <-]. now apply IH.
Qed.

Lemma release_sublist (running : list string) (m : Monitor) :
  release running m `sublist_of` running.
Proof.
  unfold release. destruct (findIndex running (id m)); [apply sublist_delete | reflexivity].
Qed.

Lemma release_appended (running : list string) (m : Monitor) :
  id m ∉ running -> release (running ++ [id m]) m = running.
Proof.
  intros Hnin. unfold release.
  assert (Hidx : findIndex (running ++ [id m]) (id m) = Some (length running)).
  { induction running as [|item items IH]; simpl.
    - now rewrite String.eqb_refl.
    - apply not_elem_of_cons in Hnin as [Hne Hnin].
      destruct (String.eqb_spec item (id m)) as [Heq|_]; [congruence|].
      now rewrite (IH Hnin). }
  rewrite Hidx. clear. induction running as [|item items IH]; simpl; [reflexivity|].
  now rewrite IH.
Qed.

Lemma startAll_NoDup (monitorList : list (option Monitor)) (running : list string) :
  NoDup running -> NoDup (startAll running monitorList).
Proof.
  unfold startAll. revert running.
  induction monitorList as [|[m|] ms IH]; intros running Hnd; simpl; auto.
  destruct (shouldRun running m) eqn:Hrun; [|auto].
  apply IH. apply NoDup_app. split; [exact Hnd|]. split; [|apply NoDup_singleton].
  intros x Hx Hxm. apply list_elem_of_singleton in Hxm. subst.
  now apply shouldRun_spec in Hrun.
Qed.

Lemma startAll_keeps (monitorList : list (option Monitor)) (running : list string)
    (monitorId : string) :
  monitorId ∈ running -> monitorId ∈ startAll running monitorList.
Proof.
  unfold startAll. revert running.
  induction monitorList as [|[m|] ms IH]; intros running Hin; simpl; auto.
  destruct (shouldRun running m); [|auto].
  apply IH. apply elem_of_app. now left.
Qed.

Lemma release_keeps (running : list string) (m : Monitor) (monitorId : string) :
  id m <> monitorId -> monitorId ∈ running -> monitorId ∈ release running m.
Proof.
  intros Hne Hin. unfold release.
  destruct (findIndex running (id m)) as [i|] eqn:Hi; [|exact Hin].
  apply findIndex_lookup in Hi.
  apply list_elem_of_lookup in Hin as [j Hj].
  destruct (decide (i = j)) as [->|Hij]; [congruence|].
  apply list_elem_of_lookup.
  destruct (decide (j < i)%nat).
  - exists j. now rewrite list_lookup_delete_lt.
  - exists (pred j). rewrite list_lookup_delete_ge by lia.
    replace (S (pred j)) with j by lia. exact Hj.
Qed.

(** X12. At most one run per monitor is in flight: starting from the
    empty list, whatever ticks of [processMonitors] and settlements of
    runs follow, no monitor id is twice in [runningMonitorList]. *)
Theorem runningMonitorList_NoDup (events : list Event) :
  NoDup (fold_left step events []).
Proof.
  generalize (NoDup_nil_2 (A := string)). generalize (@nil string) as running.
  induction events as [|e events IH]; intros running Hnd; simpl; [exact Hnd|].
  apply IH. destruct e as [[monitorList|]|m [|]]; simpl; auto.
  - now apply startAll_NoDup.
  - exact (sublist_NoDup _ _ Hnd (release_sublist running m)).
Qed.

Section WithEnv.

Variable CU_URL : string.
Variable fetchJson : string -> Fetched.
Variable random : nat -> string.
Variable now : Z.
Variable saveMsg : Saved -> bool.
Variable findLatestMsgs : string -> option (list Saved).
Variable crankMsgs : list Saved -> bool.
Variable updateMonitor : Monitor -> bool.

Abbreviation processMonitor :=
  (processMonitor CU_URL fetchJson random now saveMsg findLatestMsgs crankMsgs
     updateMonitor).
Abbreviation scheduledUrl := (scheduledUrl CU_URL).
Abbreviation documents := (documents random now).

Lemma processMonitor_running (running : list string) (m : Monitor) :
  runningMonitorList (processMonitor running m) = running ++ [id m].
Proof.
  unfold Monitor.processMonitor, fetchScheduled.
  destruct (nothingScheduled _); [reflexivity|].
  destruct (fetchJson _); try reflexivity.
  destruct (negb _); [reflexivity|].
  destruct (findLatestMsgs _); [|reflexivity].
  destruct (negb _); [reflexivity|].
  destruct (last _); [|reflexivity].
  now destruct (updateMonitor _).
Qed.

(** X13. A run keeps its monitor out of further runs while it is in
    flight.  When the run resolves, the list is again what it was before
    the run.  When the run rejects, nothing takes the monitor off the
    list: through every later tick and every settlement of other runs,
    [shouldRun] stays false for it. *)
Theorem processMonitor_in_flight (running : list string) (m : Monitor) :
  shouldRun (runningMonitorList (processMonitor running m)) m = false
  /\ (shouldRun running m = true ->
      forall r, settled (processMonitor running m) = Resolved r ->
                afterRun (processMonitor running m) m = running)
  /\ ((forall r, settled (processMonitor running m) <> Resolved r) ->
      forall events, neverReleases (id m) events ->
                     shouldRun (fold_left step events (afterRun (processMonitor running m) m)) m
                     = false).
Proof.
  assert (Hin : id m ∈ running ++ [id m]).
  { apply elem_of_app. right. apply list_elem_of_here. }
  split; [|split].
  - apply shouldRun_false. now rewrite processMonitor_running.
  - intros Hrun r Hr. unfold afterRun. rewrite Hr, processMonitor_running.
    apply release_appended. now apply shouldRun_spec.
  - intros Hrej events Hev. apply shouldRun_false.
    assert (Hafter : id m ∈ afterRun (processMonitor running m) m).
    { unfold afterRun.
      destruct (settled (processMonitor running m)) as [r| |] eqn:Hs;
        [now destruct (Hrej r) | |]; now rewrite processMonitor_running. }
    revert Hafter. generalize (afterRun (processMonitor running m) m) as current.
    induction Hev as [|e events He Hev IH]; intros current Hcur; simpl; [exact Hcur|].
    apply IH. destruct e as [[monitorList|]|m' [|]]; simpl; auto.
    + now apply startAll_keeps.
    + now apply release_keeps.
Qed.

Lemma documents_spec (batchId : string) (k : nat) (batch : list Scheduled) :
  length (documents batchId k batch) = length batch
  /\ Forall (fun doc => fromTxId doc = batchId) (documents batchId k batch)
  /\ msg <$> documents batchId k batch = rest <$> batch.
Proof.
  revert k. induction batch as [|s batch IH]; intros k; cbn [Monitor.documents].
  - repeat split. constructor.
  - destruct (IH (S k)) as [Hlen [Hall Hmsg]].
    repeat split.
    + simpl length. now rewrite Hlen.
    + now constructor.
    + now rewrite !fmap_cons, Hmsg.
Qed.

(** X14. Every message of a fetched batch is handed to [saveMsg], under
    one batch id, in the order of the batch and without its
    [scheduledSortKey], whether or not the saves succeed; when one of them
    fails the run makes no further call, rejects and leaves the monitor as
    it was, so that the cursor does not move. *)
Theorem processMonitor_saves_whole_batch
    (running : list string) (m : Monitor) (batch : list Scheduled) :
  fetchJson (scheduledUrl m) = FetchedArray batch -> batch <> [] ->
  let docs := documents ("scheduled-" +:+ random 0) 1 batch in
  exists later,
    calls (processMonitor running m)
    = CallFetch (scheduledUrl m) :: (CallSaveMsg <$> docs) ++ later
    /\ length docs = length batch
    /\ Forall (fun doc => fromTxId doc = ("scheduled-" +:+ random 0)%string) docs
    /\ msg <$> docs = rest <$> batch
    /\ (forallb saveMsg docs = false ->
        later = []
        /\ monitor (processMonitor running m) = m
        /\ settled (processMonitor running m) = Rejected "saveMsg").
Proof.
  intros Hf Hne docs.
  destruct (documents_spec ("scheduled-" +:+ random 0) 1 batch) as [Hlen [Hall Hmsg]].
  unfold Monitor.processMonitor, fetchScheduled. rewrite Hf.
  assert (Hn : nothingScheduled (FetchedArray batch) = false).
  { destruct batch; [congruence|]. apply Z.ltb_ge. simpl length. lia. }
  rewrite Hn. fold docs.
  destruct (forallb saveMsg docs) eqn:Hsave; simpl negb; cbv iota.
  2:{ exists []. rewrite app_nil_r. repeat split; auto. }
  destruct (findLatestMsgs _) as [dbMsgs|].
  2:{ eexists. cbn [calls]. rewrite <- app_assoc. repeat split; auto; discriminate. }
  destruct (negb (crankMsgs dbMsgs)).
  { eexists. cbn [calls]. rewrite <- !app_assoc. repeat split; auto; discriminate. }
  destruct (last batch).
  2:{ eexists. cbn [calls]. rewrite <- !app_assoc. repeat split; auto; discriminate. }
  destruct (updateMonitor _); eexists; cbn [calls]; rewrite <- !app_assoc;
    repeat split; auto; discriminate.
Qed.

Lemma processMonitor_first_call (running : list string) (m : Monitor) :
  exists more, calls (processMonitor running m) = CallFetch (scheduledUrl m) :: more.
Proof.
  unfold Monitor.processMonitor, fetchScheduled.
  destruct (nothingScheduled _); [eexists; reflexivity|].
  destruct (fetchJson _); try (eexists; reflexivity).
  destruct (negb _); [eexists; reflexivity|].
  destruct (findLatestMsgs _); [|eexists; reflexivity].
  destruct (negb _); [eexists; reflexivity|].
  destruct (last _); [|eexists; reflexivity].
  destruct (updateMonitor _); eexists; reflexivity.
Qed.

(** X15. The cursor: after a run that went through, the next run of the
    monitor it left asks the compute unit for the scheduled messages from
    the [scheduledSortKey] of the last message of the batch; when that
    message has no [scheduledSortKey], or an empty one, the next run asks
    without [from], for all of them again. *)
Theorem processMonitor_resumes
    (running running' : list string) (m : Monitor) (batch : list Scheduled)
    (lastScheduled : Scheduled) (dbMsgs : list Saved) :
  fetchJson (scheduledUrl m) = FetchedArray batch ->
  last batch = Some lastScheduled ->
  forallb saveMsg (documents ("scheduled-" +:+ random 0) 1 batch) = true ->
  findLatestMsgs ("scheduled-" +:+ random 0) = Some dbMsgs ->
  crankMsgs dbMsgs = true ->
  updateMonitor (setLastFromSortKey m (scheduledSortKey lastScheduled)) = true ->
  exists more,
    calls (processMonitor running' (monitor (processMonitor running m)))
    = CallFetch
        (match scheduledSortKey lastScheduled with
         | Some (String c key) =>
             CU_URL +:+ "/scheduled/" +:+ id m +:+ "?from=" +:+ String c key
         | _ => CU_URL +:+ "/scheduled/" +:+ id m
         end)
      :: more.
Proof.
  intros Hf Hlast Hsave Hfind Hcrank Hupd.
  rewrite (processMonitor_complete CU_URL fetchJson random now saveMsg findLatestMsgs
             crankMsgs updateMonitor running m batch lastScheduled dbMsgs
             Hf Hlast Hsave Hfind Hcrank Hupd).
  cbn [monitor].
  destruct (processMonitor_first_call running'
              (setLastFromSortKey m (scheduledSortKey lastScheduled))) as [more Hmore].
  exists more. rewrite Hmore. f_equal. f_equal.
  unfold Monitor.scheduledUrl. simpl.
  now destruct (scheduledSortKey lastScheduled) as [[|c key]|].
Qed.

End WithEnv.

Lemma processMonitor_in_flight_witness :
  (shouldRun [] freshMonitor = true
   /\ settled (Monitor.processMonitor "https://cu.example" (fun _ => FetchedUndefined)
                 (fun _ => "7"%string) 0 (fun _ => true) (fun _ => Some [])
                 (fun _ => true) (fun _ => true) [] freshMonitor)
      = Resolved ReturnedEmpty)
  /\ afterRun (Monitor.processMonitor "https://cu.example" (fun _ => FetchedUndefined)
                 (fun _ => "7"%string) 0 (fun _ => true) (fun _ => Some [])
                 (fun _ => true) (fun _ => true) [] freshMonitor) freshMonitor
     = [].
Proof.
  split; [split; reflexivity|].
  exact (proj1 (proj2 (processMonitor_in_flight "https://cu.example"
                         (fun _ => FetchedUndefined) (fun _ => "7"%string) 0
                         (fun _ => true) (fun _ => Some []) (fun _ => true)
                         (fun _ => true) [] freshMonitor))
           eq_refl ReturnedEmpty eq_refl).
Defined.

Lemma processMonitor_saves_whole_batch_witness :
  ((fun _ : string => FetchedArray twoScheduled)
     (Monitor.scheduledUrl "https://cu.example" freshMonitor) = FetchedArray twoScheduled
   /\ twoScheduled <> [])
  /\ exists later,
      calls (Monitor.processMonitor "https://cu.example"
               (fun _ => FetchedArray twoScheduled) (fun _ => "7"%string) 0
               (fun _ => false) (fun _ => Some []) (fun _ => true) (fun _ => true)
               [] freshMonitor)
      = CallFetch "https://cu.example/scheduled/process-1"
        :: [CallSaveMsg (mkSaved "7" "scheduled-7" "first" 0);
            CallSaveMsg (mkSaved "7" "scheduled-7" "second" 0)] ++ later.
Proof.
  assert (Hne : twoScheduled <> []) by discriminate.
  split; [split; [reflexivity | exact Hne]|].
  destruct (processMonitor_saves_whole_batch "https://cu.example"
              (fun _ => FetchedArray twoScheduled) (fun _ => "7"%string) 0
              (fun _ => false) (fun _ => Some []) (fun _ => true) (fun _ => true)
              [] freshMonitor twoScheduled eq_refl Hne) as [later [Hcalls _]].
  exists later. exact Hcalls.
Defined.

Lemma processMonitor_resumes_witness :
  ((fun _ : string => FetchedArray twoScheduled)
     (Monitor.scheduledUrl "https://cu.example" freshMonitor) = FetchedArray twoScheduled
   /\ last twoScheduled
      = Some (mkScheduled (Some "000001257295,1694181441599,bb"%string) "second"))
  /\ exists more,
      calls (Monitor.processMonitor "https://cu.example"
               (fun _ => FetchedArray twoScheduled) (fun _ => "7"%string) 0
               (fun _ => true) (fun _ => Some []) (fun _ => true) (fun _ => true) []
               (monitor
                  (Monitor.processMonitor "https://cu.example"
                     (fun _ => FetchedArray twoScheduled) (fun _ => "7"%string) 0
                     (fun _ => true) (fun _ => Some []) (fun _ => true) (fun _ => true)
                     [] freshMonitor)))
      = CallFetch
          "https://cu.example/scheduled/process-1?from=000001257295,1694181441599,bb"
        :: more.
Proof.
  split; [split; reflexivity|].
  exact (processMonitor_resumes "https://cu.example"
           (fun _ => FetchedArray twoScheduled) (fun _ => "7"%string) 0
           (fun _ => true) (fun _ => Some []) (fun _ => true) (fun _ => true)
           [] [] freshMonitor twoScheduled
           (mkScheduled (Some "000001257295,1694181441599,bb"%string) "second") []
           eq_refl eq_refl eq_refl eq_refl eq_refl eq_refl).
Defined.

End MonitorLoopFacts.

(** ** The hydration transforms: order and what they drop *)

Module HydrateOrder.
Import JS Async Model.

Section MessageId.
Import Hydrate.

Variable calcDataItemDeepHash :
  string -> list Tag -> option string -> option string -> option string.

(** X16. [maybeMessageId] neither drops nor reorders nor rewrites
    messages: what it yields is, message for message and sort key for sort
    key, a prefix of what it read, the whole of it when it ends without
    throwing and a strict prefix when it throws. *)
Theorem maybeMessageId_prefix (messages : list Cur) :
  (message <$> (maybeMessageId calcDataItemDeepHash messages).1)
    `prefix_of` (message <$> messages)
  /\ (sortKey <$> (maybeMessageId calcDataItemDeepHash messages).1)
       `prefix_of` (sortKey <$> messages)
  /\ match (maybeMessageId calcDataItemDeepHash messages).2 with
     | None =>
         length (maybeMessageId calcDataItemDeepHash messages).1 = length messages
     | Some _ =>
         (length (maybeMessageId calcDataItemDeepHash messages).1 < length messages)%nat
     end.
Proof.
  induction messages as [|cur messages IH]; cbn [maybeMessageId].
  - repeat split; reflexivity.
  - destruct (maybeMessageId calcDataItemDeepHash messages) as [yielded thrown].
    simpl in IH. destruct IH as [Hm [Hk Hlen]].
    destruct (forwardedBy cur); simpl negb; cbv iota.
    + destruct (deepHashOf calcDataItemDeepHash cur); simpl.
      * repeat split; try (now apply prefix_cons).
        destruct thrown; simpl; lia.
      * repeat split; try apply prefix_nil. lia.
    + simpl. repeat split; try (now apply prefix_cons).
      destruct thrown; simpl; lia.
Qed.

End MessageId.

Section Chain.
Import HydrateChain.

Variable loadTransactionData : string -> option string.
Variable loadTransactionMeta : string -> option Meta.
Variable bytesToBase64 : string -> string.
Variable findRawTag : string -> list Tag -> option Tag.
Variable AO_LOAD_MAX_BLOCK : Z.

Abbreviation loadFromChain :=
  (loadFromChain loadTransactionData loadTransactionMeta bytesToBase64).
Abbreviation maybeAoLoad :=
  (maybeAoLoad loadTransactionData loadTransactionMeta bytesToBase64 findRawTag
     AO_LOAD_MAX_BLOCK).
Abbreviation maybeAoAssignment :=
  (maybeAoAssignment loadTransactionData loadTransactionMeta bytesToBase64).
Abbreviation isLoad := (isLoad findRawTag).
Abbreviation sunset := (sunset findRawTag AO_LOAD_MAX_BLOCK).
Abbreviation loaded :=
  (loaded loadTransactionData loadTransactionMeta bytesToBase64 findRawTag).
Abbreviation loadable :=
  (loadable loadTransactionData loadTransactionMeta bytesToBase64 findRawTag
     AO_LOAD_MAX_BLOCK).
Abbreviation assigned := (assigned loadTransactionData loadTransactionMeta).
Abbreviation assignable :=
  (assignable loadTransactionData loadTransactionMeta bytesToBase64).

Lemma maybeAoLoad_kept (messages : list Cur) :
  loadable messages ->
  exists out,
    maybeAoLoad messages = (out, None)
    /\ Forall2 loaded (List.filter (fun cur => negb (sunset cur)) messages) out.
Proof.
  induction messages as [|cur messages IH]; intros Hall.
  - exists []. split; [reflexivity | constructor].
  - inversion Hall as [|? ? Hcur Hrest]; subst.
    destruct (IH Hrest) as [out [Hout Hrel]].
    cbn [HydrateChain.maybeAoLoad List.filter].
    unfold HydrateChain.sunset, HydrateChain.isLoad, HydrateChain.loaded in *.
    unfold HydrateChain.isLoad in *. rewrite Hout.
    destruct (findRawTag "Load" (Tags (message cur))) as [tag|] eqn:Htag.
    + destruct (Cron (message cur)) eqn:Hcron; cbn [negb andb].
      * exists (cur :: out). split; [reflexivity|]. constructor; [|exact Hrel].
        now rewrite Htag, Hcron.
      * destruct (AO_LOAD_MAX_BLOCK <=? blockHeight cur) eqn:Hcut; cbn [negb andb].
        -- exists out. split; [reflexivity | exact Hrel].
        -- destruct (Hcur eq_refl eq_refl) as [tag' [item [Ht Hitem]]].
           injection Ht as <-. rewrite Hitem.
           exists (setData cur item :: out). split; [reflexivity|].
           constructor; [|exact Hrel]. rewrite Htag, Hcron. simpl. eauto.
    + simpl. exists (cur :: out). split; [reflexivity|].
      constructor; [|exact Hrel]. now rewrite Htag.
Qed.

(** X17. [maybeAoLoad] removes from the stream exactly the ao-load
    messages (a [Load] tag, not cron) scheduled at a block height at or
    above [AO_LOAD_MAX_BLOCK]; every other message is yielded in the order
    read, an ao-load message below the cut-off with the item loaded from
    chain as its data, any other as it is. *)
Theorem maybeAoLoad_sunset (messages : list Cur) :
  loadable messages ->
  exists out,
    maybeAoLoad messages = (out, None)
    /\ Forall2 loaded (List.filter (fun cur => negb (sunset cur)) messages) out
    /\ sortKey <$> out
       = sortKey <$> List.filter (fun cur => negb (sunset cur)) messages.
Proof.
  intros Hall. destruct (maybeAoLoad_kept messages Hall) as [out [Hout Hrel]].
  exists out. split; [exact Hout|]. split; [exact Hrel|].
  clear Hout Hall. induction Hrel as [|cur o kept out Hco Hrel IH]; [reflexivity|].
  rewrite !fmap_cons, IH. f_equal.
  unfold HydrateChain.loaded in Hco. destruct (isLoad cur).
  - now destruct Hco as [tag [item [_ [_ ->]]]].
  - now subst.
Qed.

(** X18. [maybeAoAssignment] yields one message per message read, in
    order.  A message that is not an assignment is yielded as it is; an
    assignment keeps its sort key, deep hash, target and forwarding
    properties and takes the rest from the transaction of its id, the
    owner of that transaction becoming both its owner and its sender. *)
Theorem maybeAoAssignment_overlay (messages : list Cur) :
  assignable messages ->
  exists out,
    maybeAoAssignment messages = (out, None)
    /\ Forall2 assigned messages out.
Proof.
  induction messages as [|cur messages IH]; intros Hall.
  - exists []. split; [reflexivity | constructor].
  - inversion Hall as [|? ? Hcur Hrest]; subst.
    destruct (IH Hrest) as [out [Hout Hrel]].
    cbn [HydrateChain.maybeAoAssignment]. rewrite Hout.
    unfold HydrateChain.assigned.
    destruct (isAssignment cur) eqn:Ha; simpl negb; cbv iota.
    + destruct (Hcur eq_refl) as [item Hitem]. rewrite Hitem.
      exists (setMessage cur (mergeRight (message cur) item) :: out).
      split; [reflexivity|]. constructor; [|exact Hrel].
      cbv beta. rewrite Ha.
      unfold HydrateChain.loadFromChain in Hitem.
      destruct (Id (message cur)) as [txId|] eqn:Hid; [|discriminate].
      destruct (loadTransactionData txId) as [data|] eqn:Hdata; [|discriminate].
      destruct (loadTransactionMeta txId) as [meta|] eqn:Hmeta; [|discriminate].
      injection Hitem as <-. exists txId, data, meta. simpl.
      repeat split; reflexivity || assumption.
    + exists (cur :: out). split; [reflexivity|]. constructor; [|exact Hrel].
      cbv beta. now rewrite Ha.
Qed.

(** X19. Both transforms stop the stream at the first message whose
    transaction cannot be loaded (for an assignment, also when it has no
    id): they throw there, having yielded nothing for that message or any
    message after it. *)
Theorem hydration_load_failure (before after : list Cur) (cur : Cur) :
  (loadable before ->
   isLoad cur = true -> sunset cur = false ->
   (forall tag, findRawTag "Load" (Tags (message cur)) = Some tag ->
                loadFromChain (Some (tagValue tag)) true = None) ->
   exists out,
     maybeAoLoad (before ++ cur :: after) = (out, Some "loadFromChain"%string)
     /\ maybeAoLoad before = (out, None))
  /\ (assignable before ->
      isAssignment cur = true ->
      loadFromChain (Id (message cur)) false = None ->
      exists out,
        maybeAoAssignment (before ++ cur :: after) = (out, Some "loadFromChain"%string)
        /\ maybeAoAssignment before = (out, None)).
Proof.
  split.
  - intros Hall Hload Hsun Hfail.
    destruct (maybeAoLoad_kept before Hall) as [out [Hout _]].
    exists out. split; [|exact Hout]. clear Hall.
    revert out Hout. induction before as [|c before IH]; intros out Hout.
    + injection Hout as <-. cbn [app HydrateChain.maybeAoLoad].
      unfold HydrateChain.sunset, HydrateChain.isLoad in *.
      destruct (findRawTag "Load" (Tags (message cur))) as [tag|] eqn:Htag;
        [|discriminate].
      destruct (Cron (message cur)); [discriminate|]. simpl in Hsun.
      rewrite Hsun. now rewrite (Hfail tag eq_refl).
    + cbn [app HydrateChain.maybeAoLoad] in *.
      destruct (HydrateChain.maybeAoLoad _ _ _ _ _ before) as [y t] eqn:Hb.
      specialize (IH y).
      destruct (findRawTag "Load" (Tags (message c))) as [tag|].
      * destruct (Cron (message c)).
        -- injection Hout as <- ->. now rewrite (IH eq_refl).
        -- destruct (AO_LOAD_MAX_BLOCK <=? blockHeight c).
           ++ injection Hout as <- ->. now rewrite (IH eq_refl).
           ++ destruct (HydrateChain.loadFromChain _ _ _ _ _); [|discriminate].
              injection Hout as <- ->. now rewrite (IH eq_refl).
      * injection Hout as <- ->. now rewrite (IH eq_refl).
  - intros Hall Ha Hfail.
    destruct (maybeAoAssignment_overlay before Hall) as [out [Hout _]].
    exists out. split; [|exact Hout]. clear Hall.
    revert out Hout. induction before as [|c before IH]; intros out Hout.
    + injection Hout as <-. cbn [app HydrateChain.maybeAoAssignment].
      rewrite Ha. simpl. now rewrite Hfail.
    + cbn [app HydrateChain.maybeAoAssignment] in *.
      destruct (HydrateChain.maybeAoAssignment _ _ _ before) as [y t] eqn:Hb.
      specialize (IH y).
      destruct (negb (isAssignment c)).
      * injection Hout as <- ->. now rewrite (IH eq_refl).
      * destruct (HydrateChain.loadFromChain loadTransactionData loadTransactionMeta
                    bytesToBase64 (Id (message c)) false); [|discriminate].
        injection Hout as <- ->. now rewrite (IH eq_refl).
Qed.

End Chain.

Lemma maybeAoLoad_sunset_witness :
  HydrateChain.loadable (fun _ => Some "bytes"%string) HydrateChain.onChain (fun b => b)
    HydrateChain.findByName 200
    [HydrateChain.plainMessage; HydrateChain.loadAtCutOff; HydrateChain.loadBelow]
  /\ exists out,
      HydrateChain.maybeAoLoad (fun _ => Some "bytes"%string) HydrateChain.onChain
        (fun b => b) HydrateChain.findByName 200
        [HydrateChain.plainMessage; HydrateChain.loadAtCutOff; HydrateChain.loadBelow]
      = (out, None)
      /\ HydrateChain.sortKey <$> out
         = ["000000000100,1,aa"; "000000000199,2,bb"]%string.
Proof.
  assert (H : HydrateChain.loadable (fun _ => Some "bytes"%string) HydrateChain.onChain
                (fun b => b) HydrateChain.findByName 200
                [HydrateChain.plainMessage; HydrateChain.loadAtCutOff;
                 HydrateChain.loadBelow]).
  { repeat constructor; try discriminate. intros _ _. eexists _, _. split; reflexivity. }
  split; [exact H|].
  destruct (maybeAoLoad_sunset (fun _ => Some "bytes"%string) HydrateChain.onChain
              (fun b => b) HydrateChain.findByName 200
              [HydrateChain.plainMessage; HydrateChain.loadAtCutOff;
               HydrateChain.loadBelow] H) as [out [Hout [_ Hkeys]]].
  exists out. split; [exact Hout | exact Hkeys].
Defined.

Lemma maybeAoAssignment_overlay_witness :
  HydrateChain.assignable (fun _ => Some "bytes"%string) HydrateChain.onChain (fun b => b)
    [HydrateChain.plainMessage; HydrateChain.assignment]
  /\ exists out,
      HydrateChain.maybeAoAssignment (fun _ => Some "bytes"%string) HydrateChain.onChain
        (fun b => b) [HydrateChain.plainMessage; HydrateChain.assignment]
      = (out, None)
      /\ Forall2 (HydrateChain.assigned (fun _ => Some "bytes"%string) HydrateChain.onChain)
           [HydrateChain.plainMessage; HydrateChain.assignment] out.
Proof.
  assert (H : HydrateChain.assignable (fun _ => Some "bytes"%string) HydrateChain.onChain
                (fun b => b) [HydrateChain.plainMessage; HydrateChain.assignment]).
  { repeat constructor; try discriminate. intros _. eexists. reflexivity. }
  split; [exact H|].
  exact (maybeAoAssignment_overlay (fun _ => Some "bytes"%string) HydrateChain.onChain
           (fun b => b) [HydrateChain.plainMessage; HydrateChain.assignment] H).
Defined.

Lemma hydration_load_failure_witness :
  (HydrateChain.assignable (fun _ => None) HydrateChain.onChain (fun b => b)
     [HydrateChain.plainMessage]
   /\ HydrateChain.isAssignment HydrateChain.assignment = true
   /\ HydrateChain.loadFromChain (fun _ => None) HydrateChain.onChain (fun b => b)
        (HydrateChain.Id (HydrateChain.message HydrateChain.assignment)) false = None)
  /\ exists out,
      HydrateChain.maybeAoAssignment (fun _ => None) HydrateChain.onChain (fun b => b)
        ([HydrateChain.plainMessage] ++ HydrateChain.assignment :: [HydrateChain.plainMessage])
      = (out, Some "loadFromChain"%string)
      /\ HydrateChain.maybeAoAssignment (fun _ => None) HydrateChain.onChain (fun b => b)
           [HydrateChain.plainMessage] = (out, None).
Proof.
  assert (H : HydrateChain.assignable (fun _ => None) HydrateChain.onChain (fun b => b)
                [HydrateChain.plainMessage]).
  { repeat constructor. discriminate. }
  split; [split; [exact H | split; reflexivity]|].
  exact (proj2 (hydration_load_failure (fun _ => None) HydrateChain.onChain (fun b => b)
                  HydrateChain.findByName 200 [HydrateChain.plainMessage]
                  [HydrateChain.plainMessage] HydrateChain.assignment)
           H eq_refl eq_refl).
Defined.

End HydrateOrder.

(** ** Loading interactions: the [Input] tag and rejected pages *)

Module SuClientMore.
Import JS Async Model SortKey SuClient SuClientFacts.

Lemma tags_fold_snoc (ts : list Tag) (t : Tag) (a : gmap string string) :
  fold_left (fun (a : gmap string string) t => <[name t := tagValue t]> a) (ts ++ [t]) a
  = <[name t := tagValue t]>
      (fold_left (fun (a : gmap string string) t => <[name t := tagValue t]> a) ts a).
Proof. now rewrite fold_left_app. Qed.

Lemma tags_fold_other (ts : list Tag) (a : gmap string string) (key : string) :
  Forall (fun t => name t <> key) ts ->
  fold_left (fun (a : gmap string string) t => <[name t := tagValue t]> a) ts a !! key
  = a !! key.
Proof.
  revert a. induction ts as [|t ts IH]; intros a Hall; [reflexivity|].
  inversion Hall as [|? ? Ht Hts]; subst. simpl.
  rewrite (IH _ Hts). now apply lookup_insert_ne.
Qed.

(** X20. The [Input] of an interaction is the value of its last tag
    named [Input]: earlier tags of that name are overridden, and an
    interaction with no such tag has none. *)
Theorem inputOf_last (earlier later : list Tag) (value : string) :
  Forall (fun t => name t <> "Input"%string) later ->
  inputOf (earlier ++ mkTag "Input" value :: later) = Some value
  /\ inputOf later = None.
Proof.
  intros Hlater. unfold inputOf. split.
  - rewrite fold_left_app. simpl fold_left at 1.
    rewrite (tags_fold_other later _ "Input" Hlater). apply lookup_insert_eq.
  - rewrite (tags_fold_other later ∅ "Input" Hlater). apply lookup_empty.
Qed.

Lemma inputOf_last_witness :
  Forall (fun t => name t <> "Input"%string) [mkTag "Type" "message"]
  /\ inputOf ([mkTag "Input" "first"] ++ mkTag "Input" "second" :: [mkTag "Type" "message"])
     = Some "second"%string.
Proof.
  assert (H : Forall (fun t => name t <> "Input"%string) [mkTag "Type" "message"]).
  { repeat constructor. discriminate. }
  split; [exact H|].
  exact (proj1 (inputOf_last [mkTag "Input" "first"] [mkTag "Type" "message"] "second" H)).
Defined.

Section WithEnv.

Variable JSON : Type.
Variable JSON_parse : string -> option JSON.
Variable interactionSchema : Loaded JSON -> bool.
Variable SEQUENCER_URL : string.

Abbreviation toLoaded := (toLoaded JSON JSON_parse).
Abbreviation loadInteractions :=
  (loadInteractions JSON JSON_parse interactionSchema SEQUENCER_URL).

Lemma unshift_fold_None (interactions : list Interaction) :
  fold_left (unshiftStep JSON JSON_parse) interactions None = None.
Proof. induction interactions; simpl; auto. Qed.

Lemma unshift_fold_fails (interactions : list Interaction)
    (acc : option (list (Loaded JSON))) :
  Exists (fun i => toLoaded i = None) interactions ->
  fold_left (unshiftStep JSON JSON_parse) interactions acc = None.
Proof.
  intros Hex. revert acc.
  induction Hex as [i rest Hi|i rest _ IH]; intros acc; cbn [fold_left].
  - assert (Hstep : unshiftStep JSON JSON_parse acc i = None).
    { unfold unshiftStep. destruct acc; simpl; [now rewrite Hi | reflexivity]. }
    rewrite Hstep. apply unshift_fold_None.
  - apply IH.
Qed.

(** X21. A page is loaded whole or not at all: when one interaction of
    the page has no [Input] tag, or an [Input] that does not parse, the
    call rejects and hands over none of the other interactions, the
    request having been made. *)
Theorem loadInteractions_all_or_nothing
    (ctx : Bounds) (su : Sequencer) (interactions : list Interaction) :
  List.hd (Some []) (pages su) = Some interactions ->
  Exists (fun i => toLoaded i = None) interactions ->
  loadInteractions ctx su
  = ({| requests := requests su ++ [interactionsUrl SEQUENCER_URL (mapBounds ctx)];
        pages := List.tl (pages su) |},
     Rejected "JSON.parse").
Proof.
  intros Hpage Hex. unfold SuClient.loadInteractions, fetch. rewrite Hpage.
  unfold transduceInteractions. now rewrite unshift_fold_fails.
Qed.

End WithEnv.

Lemma loadInteractions_all_or_nothing_witness :
  (List.hd (Some [])
     (pages (mkSequencer []
               [Some [interactionAt keyB;
                      mkInteraction [mkTag "Type" "message"] "block" 1 1 keyA]]))
   = Some [interactionAt keyB; mkInteraction [mkTag "Type" "message"] "block" 1 1 keyA]
   /\ Exists (fun i => SuClient.toLoaded string Some i = None)
        [interactionAt keyB; mkInteraction [mkTag "Type" "message"] "block" 1 1 keyA])
  /\ SuClient.loadInteractions string Some (fun _ => true) "https://su.example" wholeRange
       (mkSequencer []
          [Some [interactionAt keyB;
                 mkInteraction [mkTag "Type" "message"] "block" 1 1 keyA]])
     = (mkSequencer [requestUrl] [], Rejected "JSON.parse").
Proof.
  assert (H : Exists (fun i => SuClient.toLoaded string Some i = None)
                [interactionAt keyB;
                 mkInteraction [mkTag "Type" "message"] "block" 1 1 keyA]).
  { apply Exists_cons_tl. apply Exists_cons_hd. reflexivity. }
  split; [split; [reflexivity | exact H]|].
  exact (loadInteractions_all_or_nothing string Some (fun _ => true)
           "https://su.example" wholeRange
           (mkSequencer []
              [Some [interactionAt keyB;
                     mkInteraction [mkTag "Type" "message"] "block" 1 1 keyA]])
           _ eq_refl H).
Defined.

End SuClientMore.

(** ** The configured port *)

Module ConfigFacts.
Import JS JSFacts Config.



End ConfigFacts.
